(** * Review scheduler of interview-prep-cli: a shallow embedding of
    [src/database.py] and the properties of its spaced-repetition schedule.

    The embedding follows the Python source: the three SQLite tables are lists
    of rows in rowid order, every [conn.execute] is a statement run against
    the open transaction, [get_connection] is the context manager with its
    commit / rollback / re-raise, and [date.today()] is a read of the
    process clock. *)

From Stdlib Require Import ZArith List Lia Bool QArith_base.
From stdpp Require Import base decidable option numbers list strings sorting
  gmap.

Local Open Scope Z_scope.

(** ** Calendar dates

    A [datetime.date] is modelled by its proleptic Gregorian ordinal
    ([date.toordinal()]): [date.min] is ordinal 1 (0001-01-01) and [date.max]
    is ordinal 3652059 (9999-12-31).  The tables store dates as ISO-8601 text
    ([date.isoformat()], always ten characters, zero padded), and SQLite
    compares that text bytewise; on such text the byte order is the calendar
    order, so a stored date is kept as its ordinal and compared as one. *)

Definition date : Type := Z.

Definition date_min : date := 1.
Definition date_max : date := 3652059.

Definition valid_date (d : date) : Prop := date_min ≤ d ≤ date_max.

(** Largest magnitude of [timedelta(days=...)]. *)
Definition timedelta_max_days : Z := 999999999.

(** ** Exceptions and outcomes *)

Inductive exn : Type :=
| OverflowError                 (* date value out of range *)
| IntegrityError                (* sqlite3: FOREIGN KEY constraint failed *)
| DatabaseError (code : Z).     (* any other sqlite3.Error raised by the store *)

Inductive outcome (A : Type) : Type :=
| Ok (a : A)
| Raised (e : exn)
| OutOfFuel.                    (* the loop budget of the model ran out *)

Arguments Ok {A} a.
Arguments Raised {A} e.
Arguments OutOfFuel {A}.

(** [timedelta(days=n)] *)
Definition timedelta (days : Z) : exn + Z :=
  if decide (Z.abs days ≤ timedelta_max_days) then inr days else inl OverflowError.

(** [d + delta] on dates: Python raises OverflowError outside
    [date.min, date.max]. *)
Definition date_add (d : date) (delta : Z) : exn + date :=
  if decide (date_min ≤ d + delta ≤ date_max) then inr (d + delta)
  else inl OverflowError.

(** ** Rows of the three tables *)

Module Problem.
Record t : Type := mk {
  id : string;
  title : string;
  description : string;
  difficulty : string;
  tags : list string;
  created_at : string }.
End Problem.

Module Submission.
Record t : Type := mk {
  id : Z;
  problem_id : string;
  code : string;
  language : string;
  ai_feedback : option string;
  passed : option bool;          (* NULL: not graded *)
  submitted_at : string }.
End Submission.

Module ReviewSchedule.
Record t : Type := mk {
  problem_id : string;
  next_review_date : date;
  interval_days : Z;
  ease_factor : Q;               (* REAL DEFAULT 2.5, never written again *)
  last_reviewed : option date }.
End ReviewSchedule.

Record database : Type := mk_database {
  problems : list Problem.t;
  submissions : list Submission.t;
  review_schedule : list ReviewSchedule.t }.

Definition with_review_schedule (db : database) (rs : list ReviewSchedule.t) :
    database :=
  {| problems := problems db; submissions := submissions db;
     review_schedule := rs |}.

(** The constraints the schema of [init_db] declares: both primary keys and
    the foreign key of [review_schedule]. *)
Record schema_ok (db : database) : Prop := {
  problems_pk : NoDup (map Problem.id (problems db));
  review_schedule_pk :
    NoDup (map ReviewSchedule.problem_id (review_schedule db));
  review_schedule_fk :
    ∀ r, r ∈ review_schedule db →
         ReviewSchedule.problem_id r ∈ map Problem.id (problems db) }.

(** ** SQL statements of the scheduler *)

(** [SELECT * FROM review_schedule WHERE problem_id = ?] then [fetchone()] *)
Definition select_schedule (problem_id : string) (db : database) :
    option ReviewSchedule.t :=
  head (filter (λ r, ReviewSchedule.problem_id r = problem_id)
               (review_schedule db)).

(** The [DO UPDATE SET] branch: the conflicting row keeps its place, its key
    and its [ease_factor]. *)
Fixpoint on_conflict_update (problem_id : string) (next_review : date)
    (interval_days : Z) (today : date) (rs : list ReviewSchedule.t) :
    list ReviewSchedule.t :=
  match rs with
  | [] => []
  | r :: rs' =>
      if decide (ReviewSchedule.problem_id r = problem_id)
      then ReviewSchedule.mk problem_id next_review interval_days
             (ReviewSchedule.ease_factor r) (Some today) :: rs'
      else r :: on_conflict_update problem_id next_review interval_days today rs'
  end.

(** [INSERT INTO review_schedule (...) VALUES (?, ?, ?, ?) ON CONFLICT(problem_id)
    DO UPDATE SET ...]: the uniqueness conflict is resolved first, then the
    foreign key is checked for a fresh row. *)
Definition upsert_schedule (problem_id : string) (next_review : date)
    (interval_days : Z) (today : date) (db : database) : exn + database :=
  match select_schedule problem_id db with
  | Some _ =>
      inr (with_review_schedule db
             (on_conflict_update problem_id next_review interval_days today
                (review_schedule db)))
  | None =>
      if decide (problem_id ∈ map Problem.id (problems db))
      then inr (with_review_schedule db
                  (review_schedule db ++
                   [ReviewSchedule.mk problem_id next_review interval_days
                      (5 # 2)%Q (Some today)]))
      else inl IntegrityError
  end.

(** Rows of [problems p JOIN review_schedule rs ON p.id = rs.problem_id]. *)
Definition join_schedule (db : database) :
    list (Problem.t * ReviewSchedule.t) :=
  rs ← review_schedule db;
  p ← filter (λ p, Problem.id p = ReviewSchedule.problem_id rs) (problems db);
  [(p, rs)].

Definition by_next_review_date : relation (Problem.t * ReviewSchedule.t) :=
  λ x y, ReviewSchedule.next_review_date x.2 ≤ ReviewSchedule.next_review_date y.2.

#[global] Instance by_next_review_date_dec x y :
    Decision (by_next_review_date x y) :=
  decide (ReviewSchedule.next_review_date x.2 ≤
          ReviewSchedule.next_review_date y.2).

(** [... WHERE rs.next_review_date <= ? ORDER BY rs.next_review_date ASC].
    SQL leaves the order of equal keys open; the model sorts with a merge
    sort, and nothing proved below depends on how ties fall. *)
Definition due_rows (today : date) (db : database) :
    list (Problem.t * ReviewSchedule.t) :=
  merge_sort by_next_review_date
    (filter (λ x, ReviewSchedule.next_review_date x.2 ≤ today)
            (join_schedule db)).

(** [SELECT COUNT( * ) FROM review_schedule WHERE next_review_date <= ?] *)
Definition count_due (today : date) (db : database) : Z :=
  Z.of_nat (length (filter (λ r, ReviewSchedule.next_review_date r ≤ today)
                           (review_schedule db))).

(** [SELECT COUNT( * ) FROM review_schedule WHERE last_reviewed IS NOT NULL] *)
Definition count_reviewed (db : database) : Z :=
  Z.of_nat (length (filter (λ r, is_Some (ReviewSchedule.last_reviewed r))
                           (review_schedule db))).

(** [SELECT COUNT( * ) FROM review_schedule WHERE last_reviewed = ?] *)
Definition count_last_reviewed (d : date) (db : database) : Z :=
  Z.of_nat (length (filter (λ r, ReviewSchedule.last_reviewed r = Some d)
                           (review_schedule db))).

(** [SELECT COUNT( * ) as total, SUM(CASE WHEN passed = 1 THEN 1 ELSE 0 END) as
    passed FROM ...] over the selected submissions: the pair is
    [(row["total"], row["passed"])], and SUM over no rows is NULL. *)
Definition graded_totals (rows : list Submission.t) : Z * option Z :=
  (Z.of_nat (length rows),
   match rows with
   | [] => None
   | _ => Some (Z.of_nat
                  (length (filter (λ s, Submission.passed s = Some true) rows)))
   end).

(** [... FROM submissions WHERE passed IS NOT NULL] *)
Definition graded (db : database) : list Submission.t :=
  filter (λ s, is_Some (Submission.passed s)) (submissions db).

(** [... FROM submissions WHERE problem_id = ? AND passed IS NOT NULL] *)
Definition graded_for (problem_id : string) (db : database) :
    list Submission.t :=
  filter (λ s, Submission.problem_id s = problem_id ∧
               is_Some (Submission.passed s)) (submissions db).

Inductive statement : Type → Type :=
| SelectSchedule (problem_id : string) : statement (option ReviewSchedule.t)
| UpsertSchedule (problem_id : string) (next_review : date)
    (interval_days : Z) (today : date) : statement unit
| SelectDue (today : date) : statement (list Problem.t)
| CountDue (today : date) : statement Z
| CountReviewed : statement Z
| GradedTotals : statement (Z * option Z)
| GradedTotalsFor (problem_id : string) : statement (Z * option Z)
| CountLastReviewed (d : date) : statement Z.

(** What a statement returns and what it leaves in the open transaction. *)
Definition exec {B} (q : statement B) (db : database) : exn + (B * database) :=
  match q in statement B return exn + (B * database) with
  | SelectSchedule problem_id => inr (select_schedule problem_id db, db)
  | UpsertSchedule problem_id next_review interval_days today =>
      match upsert_schedule problem_id next_review interval_days today db with
      | inr db' => inr (tt, db')
      | inl e => inl e
      end
  | SelectDue today => inr (map fst (due_rows today db), db)
  | CountDue today => inr (count_due today db, db)
  | CountReviewed => inr (count_reviewed db, db)
  | GradedTotals => inr (graded_totals (graded db), db)
  | GradedTotalsFor problem_id =>
      inr (graded_totals (graded_for problem_id db), db)
  | CountLastReviewed d => inr (count_last_reviewed d db, db)
  end.

(** ** Code that runs on an open connection

    The body of a [with get_connection() as conn:] block is a tree of the
    effects such a body has: it executes statements on [conn], reads the
    clock, raises, or returns.  [Spin] stands for a loop that has used up the
    iteration budget the model gives it. *)

Inductive action (A : Type) : Type :=
| Return (a : A)
| Raise (e : exn)
| Spin
| DateToday (k : date → action A)
| Execute {B : Type} (q : statement B) (k : B → action A).

Arguments Return {A} a.
Arguments Raise {A} e.
Arguments Spin {A}.
Arguments DateToday {A} k.
Arguments Execute {A B} q k.

Fixpoint action_bind {A B} (m : action A) (f : A → action B) : action B :=
  match m with
  | Return a => f a
  | Raise e => Raise e
  | Spin => Spin
  | DateToday k => DateToday (λ d, action_bind (k d) f)
  | Execute q k => Execute q (λ b, action_bind (k b) f)
  end.

#[global] Instance action_ret : MRet action := λ A a, Return a.
#[global] Instance action_mbind : MBind action := λ A B f m, action_bind m f.

(** [conn.execute(sql, params)] with its result fetched. *)
Definition execute {B} (q : statement B) : action B := Execute q Return.

(** [date.today()] *)
Definition date_today : action date := DateToday Return.

(** A computation of plain Python that may raise. *)
Definition lift {A} (r : exn + A) : action A :=
  match r with inr a => Return a | inl e => Raise e end.

(** ** The process: clock, store and connection

    [clock ε n] is what the [n]-th call of [date.today()] returns, and
    [faults ε n] says whether the [n]-th call into sqlite3 (connect, execute,
    commit) fails, and with which exception. *)

Record env : Type := mk_env {
  clock : nat → date;
  faults : nat → option exn }.

Record world : Type := mk_world {
  committed : database;          (* what the database file holds *)
  working : database;            (* what the open transaction sees *)
  reads : nat;                   (* clock reads so far *)
  calls : nat }.                 (* calls into sqlite3 so far *)

Definition tick (w : world) : world :=
  {| committed := committed w; working := working w;
     reads := S (reads w); calls := calls w |}.

Definition called (w : world) : world :=
  {| committed := committed w; working := working w;
     reads := reads w; calls := S (calls w) |}.

Definition set_working (db : database) (w : world) : world :=
  {| committed := committed w; working := db;
     reads := reads w; calls := calls w |}.

(** [conn.commit()] and [conn.rollback()] *)
Definition commit (w : world) : world :=
  {| committed := working w; working := working w;
     reads := reads w; calls := calls w |}.

Definition rollback (w : world) : world :=
  {| committed := committed w; working := committed w;
     reads := reads w; calls := calls w |}.

(** A connection just opened sees what is committed. *)
Definition connected (w : world) : world :=
  {| committed := committed w; working := committed w;
     reads := reads w; calls := calls w |}.

Fixpoint run {A} (m : action A) (ε : env) (w : world) : outcome A * world :=
  match m with
  | Return a => (Ok a, w)
  | Raise e => (Raised e, w)
  | Spin => (OutOfFuel, w)
  | DateToday k => run (k (clock ε (reads w))) ε (tick w)
  | Execute q k =>
      match faults ε (calls w) with
      | Some e => (Raised e, called w)
      | None =>
          match exec q (working w) with
          | inr (b, db') => run (k b) ε (set_working db' (called w))
          | inl e => (Raised e, called w)
          end
      end
  end.

(** Code of [database.py] outside a [with] block. *)
Definition io (A : Type) : Type := env → world → outcome A * world.

Definition io_bind {A B} (m : io A) (f : A → io B) : io B :=
  λ ε w, match m ε w with
         | (Ok a, w') => f a ε w'
         | (Raised e, w') => (Raised e, w')
         | (OutOfFuel, w') => (OutOfFuel, w')
         end.

#[global] Instance io_ret : MRet io := λ A a ε w, (Ok a, w).
#[global] Instance io_mbind : MBind io := λ A B f m, io_bind m f.

(** A call into sqlite3 that returns nothing of interest: [sqlite3.connect],
    a [PRAGMA], [conn.commit()]. *)
Definition store_call : io unit :=
  λ ε w, match faults ε (calls w) with
         | Some e => (Raised e, called w)
         | None => (Ok tt, called w)
         end.

(** [date.today()] outside a [with] block. *)
Definition today_io : io date := λ ε w, (Ok (clock ε (reads w)), tick w).

(** The [try] block around [yield conn]: the body runs on a connection that
    sees what is committed; its writes are committed when it returns, and
    rolled back, with the exception raised again, when it or the commit
    raises.  [conn.close()] changes nothing that is stored. *)
Definition try_yield {A} (body : action A) : io A :=
  λ ε w,
    match run body ε (connected w) with
    | (Ok a, w') =>
        match store_call ε w' with         (* conn.commit() *)
        | (Ok _, w'') => (Ok a, commit w'')
        | (Raised e, w'') => (Raised e, rollback w'')
        | (OutOfFuel, w'') => (OutOfFuel, rollback w'')
        end
    | (Raised e, w') => (Raised e, rollback w')
    | (OutOfFuel, w') => (OutOfFuel, rollback w')
    end.

(** The context manager [get_connection]:
<<
    conn = sqlite3.connect(DB_PATH)
    conn.execute("PRAGMA journal_mode=WAL")
    conn.execute("PRAGMA foreign_keys=ON")
    try:
        yield conn
        conn.commit()
    except Exception:
        conn.rollback()
        raise
    finally:
        conn.close()
>>
*)
Definition get_connection {A} (body : action A) : io A :=
  _ ← store_call;                          (* sqlite3.connect(DB_PATH) *)
  _ ← store_call;                          (* PRAGMA journal_mode=WAL *)
  _ ← store_call;                          (* PRAGMA foreign_keys=ON *)
  try_yield body.

(** A call of a function of [database.py] by a process whose database file
    holds [db]: its outcome and what the file holds afterwards. *)
Definition boot (db : database) : world :=
  {| committed := db; working := db; reads := 0; calls := 0 |}.

Definition call {A} (f : io A) (ε : env) (db : database) :
    outcome A * database :=
  let (r, w) := f ε (boot db) in (r, committed w).

(** The number of calls into sqlite3 that [f] makes. *)
Definition store_calls {A} (f : io A) (ε : env) (db : database) : nat :=
  calls (f ε (boot db)).2.

(** A process whose store never fails and whose clock shows [today]. *)
Definition no_faults : nat → option exn := λ _, None.

Definition on_day (today : date) : env :=
  {| clock := λ _, today; faults := no_faults |}.

(** ** The scheduler *)

Record schedule_result : Type := mk_result {
  next_review_date : date;
  interval_days : Z }.

(** The branches on [success] and on the prior row in
    [update_review_schedule]. *)
Definition new_interval (success : bool) (row : option ReviewSchedule.t) : Z :=
  if success then
    match row with
    | None => 1
    | Some r =>
        if decide (ReviewSchedule.interval_days r = 1) then 3
        else if decide (ReviewSchedule.interval_days r = 3) then 7
        else ReviewSchedule.interval_days r * 2
    end
  else 1.

(** [update_review_schedule]; the [return] after the [with] block is the
    value the block ends with. *)
Definition update_review_schedule (problem_id : string) (success : bool) :
    io schedule_result :=
  today ← today_io;
  get_connection (
    row ← execute (SelectSchedule problem_id);
    let interval_days := new_interval success row in
    delta ← lift (timedelta interval_days);
    next_review ← lift (date_add today delta);
    _ ← execute (UpsertSchedule problem_id next_review interval_days today);
    mret {| next_review_date := next_review; interval_days := interval_days |}).

Definition get_due_reviews : io (list Problem.t) :=
  today ← today_io;
  get_connection (execute (SelectDue today)).

Record review_stats : Type := mk_stats {
  due_today : Z;
  total_reviewed : Z;
  graded_counts : Z * Z;         (* (total_passed, total_graded) *)
  current_streak : Z }.

(** The [while True] loop of [get_review_stats], with an iteration budget. *)
Fixpoint streak_loop (fuel : nat) (check_date : date) (streak : Z) : action Z :=
  match fuel with
  | O => Spin
  | S fuel' =>
      count ← execute (CountLastReviewed check_date);
      if decide (count = 0) then mret streak
      else
        let streak' := streak + 1 in
        delta ← lift (timedelta 1);
        check_date' ← lift (date_add check_date (- delta));
        streak_loop fuel' check_date' streak'
  end.

(** [get_review_stats]; the percentage [avg_success_rate] is floating-point
    arithmetic on the two counts and is left as the pair of counts. *)
Definition get_review_stats (fuel : nat) : io review_stats :=
  today ← today_io;
  get_connection (
    due_today ← execute (CountDue today);
    total_reviewed ← execute CountReviewed;
    result ← execute GradedTotals;
    let total_graded := result.1 in
    let total_passed := default 0 result.2 in
    check_date ← date_today;
    streak ← streak_loop fuel check_date 0;
    mret {| due_today := due_today; total_reviewed := total_reviewed;
            graded_counts := (total_passed, total_graded);
            current_streak := streak |}).

Definition get_success_rate (problem_id : string) : io (Z * Z) :=
  get_connection (
    row ← execute (GradedTotalsFor problem_id);
    mret (default 0 row.2, row.1)).

(** The same process with a store that never fails. *)
Definition quiet (ε : env) : env :=
  {| clock := clock ε; faults := no_faults |}.

(** [e] is the first failure of the store, at its [n]-th call. *)
Definition first_fault (ε : env) (n : nat) (e : exn) : Prop :=
  faults ε n = Some e ∧ ∀ m, (m < n)%nat → faults ε m = None.

(** ** The interval sequence 1, 3, 7, 14, 28, 56, ... *)

Fixpoint interval_sequence (n : nat) : Z :=
  match n with
  | O => 1
  | S O => 3
  | S (S O) => 7
  | S n' => interval_sequence n' * 2
  end.

(** ** A sequence of recorded outcomes

    [record_outcomes problem_id marks db] is what a user who marks the same
    problem once per element of [marks] (solved or struggled, on the day
    given) gets back from each call, and the store at the end. *)

Fixpoint record_outcomes (problem_id : string) (marks : list (bool * date))
    (db : database) : list (outcome schedule_result) * database :=
  match marks with
  | [] => ([], db)
  | (success, today) :: marks' =>
      let (r, db') :=
        call (update_review_schedule problem_id success) (on_day today) db in
      let (rs, db'') := record_outcomes problem_id marks' db' in
      (r :: rs, db'')
  end.

(** The interval the specification asks for after a success, from the prior
    interval (if any). *)
Definition expected_interval (prior : option Z) : Z :=
  match prior with
  | None => 1
  | Some 1 => 3
  | Some 3 => 7
  | Some days => days * 2
  end.

(** ** Reachable stores

    The stores a process can leave behind, from a store without schedule
    records, by calls of the four scheduler functions, whatever the clock
    shows and whatever the store does at each call. *)

Inductive reachable : database → Prop :=
| reachable_fresh ps ss :
    reachable {| problems := ps; submissions := ss; review_schedule := [] |}
| reachable_update db ε problem_id success :
    reachable db →
    reachable (call (update_review_schedule problem_id success) ε db).2
| reachable_due db ε :
    reachable db → reachable (call get_due_reviews ε db).2
| reachable_stats db ε fuel :
    reachable db → reachable (call (get_review_stats fuel) ε db).2
| reachable_rate db ε problem_id :
    reachable db → reachable (call (get_success_rate problem_id) ε db).2.

(** Statements that only read, and bodies made of them. *)
Definition reads_only {B} (q : statement B) : Prop :=
  match q with
  | UpsertSchedule _ _ _ _ => False
  | _ => True
  end.

Fixpoint read_only {A} (m : action A) : Prop :=
  match m with
  | Return _ | Raise _ | Spin => True
  | DateToday k => ∀ d, read_only (k d)
  | Execute q k => reads_only q ∧ ∀ b, read_only (k b)
  end.

(** Some record says its problem was last reviewed on day [d]. *)
Definition reviewed_on (db : database) (d : date) : Prop :=
  ∃ r, r ∈ review_schedule db ∧ ReviewSchedule.last_reviewed r = Some d.

(** ** The rest of [database.py]

    The functions below run other statements than the scheduler's.  A body
    of such a [with] block is a tree of statements, each given by what it
    returns and what it leaves in the open transaction. *)

Inductive script (A : Type) : Type :=
| Finish (a : A)
| Abort (e : exn)
| Sql {B : Type} (q : database → exn + (B * database)) (k : B → script A).

Arguments Finish {A} a.
Arguments Abort {A} e.
Arguments Sql {A B} q k.

Fixpoint script_bind {A B} (m : script A) (f : A → script B) : script B :=
  match m with
  | Finish a => f a
  | Abort e => Abort e
  | Sql q k => Sql q (λ b, script_bind (k b) f)
  end.

(** [conn.execute(...)] of a statement that reads, and of one that writes. *)
Definition fetch {B} (f : database → B) : script B :=
  Sql (λ db, inr (f db, db)) Finish.

Definition write {B} (q : database → exn + (B * database)) : script B :=
  Sql q Finish.

Fixpoint run_script {A} (m : script A) (ε : env) (w : world) :
    outcome A * world :=
  match m with
  | Finish a => (Ok a, w)
  | Abort e => (Raised e, w)
  | Sql q k =>
      match faults ε (calls w) with
      | Some e => (Raised e, called w)
      | None =>
          match q (working w) with
          | inr (b, db') => run_script (k b) ε (set_working db' (called w))
          | inl e => (Raised e, called w)
          end
      end
  end.

(** [get_connection] around such a body: connect, the two PRAGMAs, the body,
    then commit, or rollback and raise again. *)
Definition try_script {A} (body : script A) : io A :=
  λ ε w,
    match run_script body ε (connected w) with
    | (Ok a, w') =>
        match store_call ε w' with         (* conn.commit() *)
        | (Ok _, w'') => (Ok a, commit w'')
        | (Raised e, w'') => (Raised e, rollback w'')
        | (OutOfFuel, w'') => (OutOfFuel, rollback w'')
        end
    | (Raised e, w') => (Raised e, rollback w')
    | (OutOfFuel, w') => (OutOfFuel, rollback w')
    end.

Definition with_connection {A} (body : script A) : io A :=
  _ ← store_call;                          (* sqlite3.connect(DB_PATH) *)
  _ ← store_call;                          (* PRAGMA journal_mode=WAL *)
  _ ← store_call;                          (* PRAGMA foreign_keys=ON *)
  try_script body.

(** *** [get_next_review_date] *)

Definition get_next_review_date (problem_id : string) : io (option date) :=
  with_connection (
    script_bind (fetch (select_schedule problem_id)) (λ row,
    Finish (ReviewSchedule.next_review_date <$> row))).

(** *** [get_review_info_for_problems] *)

Module ReviewInfo.
Record t : Type := mk {
  next_review_date : date;
  interval_days : Z;
  last_reviewed : option date }.
End ReviewInfo.

Definition review_info_of (row : ReviewSchedule.t) : ReviewInfo.t :=
  {| ReviewInfo.next_review_date := ReviewSchedule.next_review_date row;
     ReviewInfo.interval_days := ReviewSchedule.interval_days row;
     ReviewInfo.last_reviewed := ReviewSchedule.last_reviewed row |}.

(** [SELECT * FROM review_schedule WHERE problem_id IN (?,...,?)] with one
    variable per identifier.  SQLite refuses a statement with more than
    SQLITE_MAX_VARIABLE_NUMBER variables (a constant of the build, 32766 or
    999): sqlite3.OperationalError, too many SQL variables. *)
Definition select_schedule_in (max_variable_number : nat)
    (problem_ids : list string) (db : database) :
    exn + (list ReviewSchedule.t * database) :=
  if decide (length problem_ids ≤ max_variable_number)%nat
  then inr (filter (λ r, ReviewSchedule.problem_id r ∈ problem_ids)
                   (review_schedule db), db)
  else inl (DatabaseError 1).

(** The dict comprehension over the rows: a later row with the same key
    replaces an earlier one. *)
Definition review_info_dict (rows : list ReviewSchedule.t) :
    gmap string ReviewInfo.t :=
  foldl (λ d row, <[ReviewSchedule.problem_id row := review_info_of row]> d)
        ∅ rows.

Definition get_review_info_for_problems (max_variable_number : nat)
    (problem_ids : list string) : io (gmap string ReviewInfo.t) :=
  match problem_ids with
  | [] => mret ∅                         (* if not problem_ids: return {} *)
  | _ =>
      with_connection (
        script_bind
          (write (select_schedule_in max_variable_number problem_ids))
          (λ rows, Finish (review_info_dict rows)))
  end.

(** *** [get_problem] *)

(** [SELECT * FROM problems WHERE id = ?] then [fetchone()] *)
Definition select_problem (problem_id : string) (db : database) :
    option Problem.t :=
  head (filter (λ p, Problem.id p = problem_id) (problems db)).

Definition get_problem (problem_id : string) : io (option Problem.t) :=
  with_connection (fetch (select_problem problem_id)).

(** *** [save_submission] and [get_submissions] *)

(** The rowid an AUTOINCREMENT key gives the next row: one more than the
    largest ever used.  [database.py] never deletes a submission, so the
    largest ever used is the largest in the table (0 for an empty table). *)
Definition largest_submission_id (db : database) : Z :=
  foldr Z.max 0 (Submission.id <$> submissions db).

(** [INSERT INTO submissions (problem_id, code, language, ai_feedback, passed)
    VALUES (?, ?, ?, ?, ?)] and [cursor.lastrowid].  The foreign key asks for
    the problem; [now] is what CURRENT_TIMESTAMP yields for [submitted_at];
    a table whose largest rowid is the largest 64-bit integer is full
    (SQLITE_FULL). *)
Definition insert_submission (now : string) (problem_id code language : string)
    (ai_feedback : option string) (passed : option bool) (db : database) :
    exn + (Z * database) :=
  if decide (largest_submission_id db = 2 ^ 63 - 1) then inl (DatabaseError 13)
  else if decide (problem_id ∈ map Problem.id (problems db)) then
    let id := largest_submission_id db + 1 in
    inr (id,
         {| problems := problems db;
            submissions :=
              submissions db ++
              [Submission.mk id problem_id code language ai_feedback passed
                 now];
            review_schedule := review_schedule db |})
  else inl IntegrityError.

Definition save_submission (now : string) (problem_id code language : string)
    (ai_feedback : option string) (passed : option bool) : io Z :=
  with_connection
    (write (insert_submission now problem_id code language ai_feedback passed)).

(** [ORDER BY submitted_at DESC, id DESC]: [x] comes before [y]. *)
Definition newest_first : relation Submission.t :=
  λ x y,
    if decide (Submission.submitted_at x = Submission.submitted_at y)
    then Submission.id y ≤ Submission.id x
    else String.le (Submission.submitted_at y) (Submission.submitted_at x).

#[global] Instance newest_first_dec x y : Decision (newest_first x y).
Proof. unfold newest_first. destruct (decide _); apply _. Defined.

(** [SELECT * FROM submissions WHERE problem_id = ? ORDER BY submitted_at
    DESC, id DESC LIMIT ?].  A negative LIMIT is no limit; binding a Python
    int that does not fit 64 bits raises OverflowError. *)
Definition select_submissions (problem_id : string) (limit : Z)
    (db : database) : exn + (list Submission.t * database) :=
  if decide (- 2 ^ 63 ≤ limit < 2 ^ 63) then
    let rows :=
      merge_sort newest_first
        (filter (λ s, Submission.problem_id s = problem_id) (submissions db)) in
    inr (if decide (limit < 0) then rows else take (Z.to_nat limit) rows, db)
  else inl OverflowError.

Definition get_submissions (problem_id : string) (limit : Z) :
    io (list Submission.t) :=
  with_connection (write (select_submissions problem_id limit)).

(** *** [get_stats] *)

Module Stats.
Record t : Type := mk {
  total_problems : Z;
  by_difficulty : gmap string Z;
  total_submissions : Z;
  problems_attempted : Z }.
End Stats.

(** [SELECT difficulty, COUNT( * ) as cnt FROM problems GROUP BY difficulty]:
    one row per difficulty that occurs. *)
Definition difficulty_counts (db : database) : list (string * Z) :=
  (λ d, (d, Z.of_nat (length (filter (λ p, Problem.difficulty p = d)
                                     (problems db))))) <$>
  remove_dups (Problem.difficulty <$> problems db).

(** [SELECT COUNT(DISTINCT problem_id) FROM submissions] *)
Definition count_attempted (db : database) : Z :=
  Z.of_nat (length (remove_dups (Submission.problem_id <$> submissions db))).

Definition get_stats : io Stats.t :=
  with_connection (
    script_bind (fetch (λ db, Z.of_nat (length (problems db)))) (λ total,
    script_bind (fetch difficulty_counts) (λ rows,
    let difficulty_counts :=
      foldl (λ d (row : string * Z), <[row.1 := row.2]> d) ∅ rows in
    script_bind (fetch (λ db, Z.of_nat (length (submissions db))))
      (λ total_submissions,
    script_bind (fetch count_attempted) (λ problems_attempted,
    Finish {| Stats.total_problems := total;
              Stats.by_difficulty := difficulty_counts;
              Stats.total_submissions := total_submissions;
              Stats.problems_attempted := problems_attempted |}))))).

(** *** [load_problems_from_json] and [load_all_problems] *)

(** An element of the JSON array of a problems file, as the loader reads it:
    the four keys it indexes, and [tags], which may be missing. *)
Module JsonProblem.
Record t : Type := mk {
  id : string;
  title : string;
  description : string;
  difficulty : string;
  tags : option (list string) }.
End JsonProblem.

(** [CHECK(difficulty IN ('easy', 'medium', 'hard'))] *)
Definition difficulty_ok (difficulty : string) : Prop :=
  difficulty ∈ ["easy"; "medium"; "hard"]%string.

(** The row of [problems] that an element of the file becomes: the tags are
    stored as [json.dumps(p.get("tags", []))] and read back by [json.loads];
    [now] is what CURRENT_TIMESTAMP yields for [created_at]. *)
Definition problem_row (now : string) (p : JsonProblem.t) : Problem.t :=
  Problem.mk (JsonProblem.id p) (JsonProblem.title p)
    (JsonProblem.description p) (JsonProblem.difficulty p)
    (default [] (JsonProblem.tags p)) now.

Definition add_problems (db : database) (rows : list Problem.t) : database :=
  {| problems := problems db ++ rows;
     submissions := submissions db;
     review_schedule := review_schedule db |}.

(** [INSERT OR IGNORE INTO problems (id, title, description, difficulty, tags)
    VALUES (?, ?, ?, ?, ?)] and [result.rowcount]: a row whose key is taken
    or whose difficulty fails the CHECK is skipped, without an error. *)
Definition insert_or_ignore_problem (now : string) (p : JsonProblem.t)
    (db : database) : exn + (Z * database) :=
  if decide (JsonProblem.id p ∈ map Problem.id (problems db)) then inr (0, db)
  else if decide (difficulty_ok (JsonProblem.difficulty p)) then
    inr (1, add_problems db [problem_row now p])
  else inr (0, db).

(** The [for p in problems:] loop; [now k] is the time of the insert of the
    [k]-th element. *)
Fixpoint load_rows (now : nat → string) (k : nat) (file : list JsonProblem.t)
    (count : Z) : script Z :=
  match file with
  | [] => Finish count
  | p :: rest =>
      script_bind (write (insert_or_ignore_problem (now k) p)) (λ rowcount,
      load_rows now (S k) rest (count + rowcount))
  end.

(** [load_problems_from_json], from the decoded content of the file. *)
Definition load_problems_from_json (now : nat → string)
    (file : list JsonProblem.t) : io Z :=
  with_connection (load_rows now 0 file 0).

(** [load_all_problems]: [additional] is the content of
    additional_problems.json when that file exists, and [now'] gives the
    times of its inserts. *)
Definition load_all_problems (now now' : nat → string)
    (file : list JsonProblem.t) (additional : option (list JsonProblem.t)) :
    io Z :=
  count ← load_problems_from_json now file;
  match additional with
  | Some more =>
      count' ← load_problems_from_json now' more;
      mret (count + count')
  | None => mret count
  end.

(** The rows a file adds to a table that holds the keys [ids]: the elements
    with a difficulty the CHECK accepts and a key not seen before, in the
    order of the file. *)
Fixpoint new_problems (now : nat → string) (k : nat)
    (file : list JsonProblem.t) (ids : list string) : list Problem.t :=
  match file with
  | [] => []
  | p :: rest =>
      if decide (JsonProblem.id p ∈ ids) then new_problems now (S k) rest ids
      else if decide (difficulty_ok (JsonProblem.difficulty p)) then
        problem_row (now k) p ::
        new_problems now (S k) rest (ids ++ [JsonProblem.id p])
      else new_problems now (S k) rest ids
  end.

(** *** [get_all_tags] *)

(** The loop [counts[tag] = counts.get(tag, 0) + 1] over the tags of all
    rows. *)
Definition count_tags (rows : list (list string)) : gmap string Z :=
  foldl (λ counts tag, <[tag := default 0 (counts !! tag) + 1]> counts)
        ∅ (mjoin rows).

(** The sort key [(-x[1], x[0])]: larger counts first, names ascending
    among equal counts. *)
Definition by_count_then_name : relation (string * Z) :=
  λ x y, if decide (x.2 = y.2) then String.le x.1 y.1 else y.2 < x.2.

#[global] Instance by_count_then_name_dec x y :
  Decision (by_count_then_name x y).
Proof. unfold by_count_then_name. destruct (decide _); apply _. Defined.

(** [get_all_tags]; the result is the dict in its order.  The keys of the
    sort are pairwise different, so the sorted list does not depend on the
    order in which the dict is read. *)
Definition get_all_tags : io (list (string * Z)) :=
  rows ← with_connection (fetch (λ db, Problem.tags <$> problems db));
  mret (merge_sort by_count_then_name (map_to_list (count_tags rows))).

(** ** Text helpers of [cli.py] and [ai_reviewer.py]

    Here the characters of a Python [str] matter, so a text is the list of
    its code points.  [str.strip()] removes the characters for which
    [str.isspace] holds; the helpers are defined over that predicate. *)

Definition comma : N := 44.
Definition space : N := 32.
Definition newline : N := 10.
Definition backtick : N := 96.

(** [sep.join(parts)]. *)
Fixpoint join (sep : list N) (parts : list (list N)) : list N :=
  match parts with
  | [] => []
  | [t] => t
  | t :: rest => t ++ sep ++ join sep rest
  end.

(** [s.split(sep)] for a separator of one character: the pieces between
    the separators, empty pieces included. *)
Fixpoint split (sep : N) (s : list N) : list (list N) :=
  match s with
  | [] => [[]]
  | c :: s' =>
      if decide (c = sep) then [] :: split sep s'
      else match split sep s' with
           | [] => [[c]]
           | t :: ts => (c :: t) :: ts
           end
  end.

(** [s.split(c, 1)[1]] when [c in s]: what follows the first [c]. *)
Fixpoint after_first (c : N) (s : list N) : option (list N) :=
  match s with
  | [] => None
  | x :: s' => if decide (x = c) then Some s' else after_first c s'
  end.

Definition startswith (prefix s : list N) : bool :=
  bool_decide (take (length prefix) s = prefix).

Definition endswith (suffix s : list N) : bool :=
  bool_decide ((length suffix ≤ length s)%nat ∧
               drop (length s - length suffix) s = suffix).

Section Text.
Variable isspace : N → bool.

Fixpoint lstrip (s : list N) : list N :=
  match s with
  | [] => []
  | c :: s' => if isspace c then lstrip s' else s
  end.

Definition rstrip (s : list N) : list N := reverse (lstrip (reverse s)).

Definition strip (s : list N) : list N := rstrip (lstrip s).

(** [_parse_tags] of [cli.py]; [None] and the empty text are falsy. *)
Definition _parse_tags (tags : option (list N)) : option (list (list N)) :=
  match tags with
  | None | Some [] => None
  | Some s => Some (filter (λ t, t ≠ []) (strip <$> split comma s))
  end.

Definition fence : list N := [backtick; backtick; backtick].

(** [_strip_markdown_fences] of [ai_reviewer.py]. *)
Definition _strip_markdown_fences (text : list N) : list N :=
  let text := strip text in
  let text :=
    if startswith fence text then
      match after_first newline text with
      | Some rest => rest
      | None => drop 3 text
      end
    else text in
  let text :=
    if endswith fence text then take (length text - 3) text else text in
  strip text.

(** A text that neither begins nor ends with a whitespace character. *)
Definition stripped (t : list N) : Prop :=
  (∀ c, head t = Some c → isspace c = false) ∧
  (∀ c, last t = Some c → isspace c = false).
End Text.

(** ** Example data: the problems of the test suite, and 2024-01-01 *)

Local Open Scope string_scope.

Definition two_sum : string := "two-sum".
Definition valid_parens : string := "valid-parens".

Definition example_problems : list Problem.t :=
  [Problem.mk two_sum "Two Sum" "Find two numbers that add up to target."
     "easy" ["arrays"] "2024-01-01 00:00:00";
   Problem.mk valid_parens "Valid Parentheses"
     "Check if parentheses are balanced." "easy" ["stacks"]
     "2024-01-01 00:00:00";
   Problem.mk "longest-substring" "Longest Substring"
     "Find longest substring without repeating chars." "medium" ["strings"]
     "2024-01-01 00:00:00"].

Definition fresh_db : database :=
  {| problems := example_problems; submissions := []; review_schedule := [] |}.

(** [date(2024, 1, 1).toordinal()] *)
Definition jan_1_2024 : date := 738886.

Local Close Scope string_scope.

(** The second scenario of the specification, on 2024-01-02: one problem due
    since yesterday and one due today, stored in the other order. *)
Definition two_due_db : database :=
  {| problems := example_problems; submissions := [];
     review_schedule :=
       [ReviewSchedule.mk valid_parens 738887 1 (5 # 2)%Q (Some jan_1_2024);
        ReviewSchedule.mk two_sum jan_1_2024 1 (5 # 2)%Q (Some 738885)] |}.

(** The store of [test_streak_counts_consecutive_days] on 2024-01-02: one
    problem reviewed that day and one the day before. *)
Definition two_day_streak_db : database :=
  {| problems := example_problems; submissions := [];
     review_schedule :=
       [ReviewSchedule.mk two_sum 738888 1 (5 # 2)%Q (Some 738887);
        ReviewSchedule.mk valid_parens 738890 3 (5 # 2)%Q (Some jan_1_2024)] |}.

(** The histories of the last testable property: three graded submissions
    (pass, fail, pass) for one problem beside one of another problem, and a
    single ungraded submission. *)
Definition submission (id : Z) (problem_id : string) (passed : option bool) :
    Submission.t :=
  Submission.mk id problem_id "code"%string "python"%string None passed
    "2024-01-01 00:00:00"%string.

Definition pass_fail_pass_db : database :=
  {| problems := example_problems;
     submissions :=
       [submission 1 two_sum (Some true);
        submission 2 valid_parens (Some true);
        submission 3 two_sum (Some false);
        submission 4 two_sum (Some true)];
     review_schedule := [] |}.

Definition ungraded_db : database :=
  {| problems := example_problems;
     submissions := [submission 1 two_sum None];
     review_schedule := [] |}.

(** A process on 2024-01-01 whose [n]-th call into sqlite3 fails with [e]
    (a locked database, say) and whose other calls succeed. *)
Definition failing_at (n : nat) (e : exn) : env :=
  {| clock := λ _, jan_1_2024;
     faults := λ m, if decide (m = n) then Some e else None |}.


(** The problems file of the tag tests, with one element more whose
    difficulty the schema does not accept, and a second file. *)
Definition json_problem (id title difficulty : string) (tags : list string) :
    JsonProblem.t :=
  JsonProblem.mk id title "..."%string difficulty (Some tags).

Local Open Scope string_scope.

Definition example_file : list JsonProblem.t :=
  [json_problem two_sum "Two Sum" "easy" ["arrays"; "hash-table"];
   json_problem "reverse-string" "Reverse String" "easy"
     ["strings"; "two-pointers"];
   json_problem "three-sum" "3Sum" "medium"
     ["arrays"; "two-pointers"; "sorting"];
   json_problem "number-of-islands" "Number of Islands" "medium"
     ["graphs"; "dfs"; "bfs"];
   json_problem "merge-k-sorted-lists" "Merge K Sorted Lists" "hard"
     ["linked-list"; "heap"];
   json_problem "fizz-buzz" "Fizz Buzz" "trivial" []].

Definition additional_file : list JsonProblem.t :=
  [json_problem "climbing-stairs" "Climbing Stairs" "easy"
     ["dynamic-programming"]].

Definition noon : nat → string := λ _, "2024-01-01 12:00:00".

Local Close Scope string_scope.

Definition empty_db : database :=
  {| problems := []; submissions := []; review_schedule := [] |}.

(** The whitespace of ASCII, for the examples of the text helpers: the
    characters 9 to 13 and 28 to 32. *)
Definition ascii_isspace (c : N) : bool :=
  bool_decide (9 ≤ c ≤ 13 ∨ 28 ≤ c ≤ 32)%N.
(** ** Running the model: unfolding and basic facts *)

Arguments timedelta : simpl never.
Arguments date_add : simpl never.
Arguments upsert_schedule : simpl never.
Arguments select_schedule : simpl never.
Arguments due_rows : simpl never.
Arguments graded_totals : simpl never.
Arguments count_last_reviewed : simpl never.

Ltac io_unfold :=
  repeat (progress (unfold call, store_calls, mbind, mret, io_mbind, io_ret,
                      io_bind, action_mbind, action_ret, get_connection,
                      try_yield, store_call, today_io, execute, date_today;
                    cbn)).

#[global] Instance by_next_review_date_total : Total by_next_review_date.
Proof. intros x y. unfold by_next_review_date. lia. Qed.

#[global] Instance by_next_review_date_trans : Transitive by_next_review_date.
Proof. intros x y z. unfold by_next_review_date. lia. Qed.

Section Run.
Context {A : Type}.
Implicit Types (m : action A) (ε : env) (w : world).

Lemma run_bind {B} m (f : A → action B) ε w :
  run (action_bind m f) ε w =
    match run m ε w with
    | (Ok a, w') => run (f a) ε w'
    | (Raised e, w') => (Raised e, w')
    | (OutOfFuel, w') => (OutOfFuel, w')
    end.
Proof.
  revert w. induction m as [a|e| |k IH|B' q k IH]; intros w; cbn; try done.
  destruct (faults ε (calls w)); [done|].
  destruct (exec q (working w)) as [e|[b db']]; [done|]. apply IH.
Qed.

(** Nothing inside the [with] block touches what is committed. *)
Lemma run_committed m ε w : committed (run m ε w).2 = committed w.
Proof.
  revert w. induction m as [a|e| |k IH|B' q k IH]; intros w; cbn; try done.
  - by rewrite IH.
  - destruct (faults ε (calls w)); [done|].
    destruct (exec q (working w)) as [e|[b db']]; [done|]. by rewrite IH.
Qed.

Lemma run_calls_mono m ε w : (calls w ≤ calls (run m ε w).2)%nat.
Proof.
  revert w. induction m as [a|e| |k IH|B' q k IH]; intros w; cbn; try done.
  - apply (IH _ (tick w)).
  - destruct (faults ε (calls w)); [cbn; lia|].
    destruct (exec q (working w)) as [e|[b db']]; [cbn; lia|].
    etrans; [|apply IH]. cbn. lia.
Qed.

(** Up to the first failure of the store the run is the run on a store that
    never fails; at the failure the exception of the store is what the body
    raises. *)
Lemma run_first_fault m ε n e w :
  first_fault ε n e → (calls w ≤ n)%nat →
  ((calls (run m (quiet ε) w).2 ≤ n)%nat ∧ run m ε w = run m (quiet ε) w) ∨
  ((n < calls (run m (quiet ε) w).2)%nat ∧ ∃ w', run m ε w = (Raised e, w')).
Proof.
  intros [Hn Hlt]. revert w.
  induction m as [a|e'| |k IH|B' q k IH]; intros w Hw; cbn; try (left; done).
  - apply (IH _ (tick w)). done.
  - destruct (decide (calls w = n)) as [Heq|Hne].
    + right. rewrite Heq, Hn. split; [|by eexists].
      destruct (exec q (working w)) as [e'|[b db']]; [cbn; lia|].
      eapply Nat.lt_le_trans; [|apply run_calls_mono]. cbn. lia.
    + rewrite Hlt by lia.
      destruct (exec q (working w)) as [e'|[b db']].
      * left. cbn. split; [lia|done].
      * apply IH. cbn. lia.
Qed.

(** On leaving the [with] block either the body's writes are committed, or
    an exception leaves and nothing is. *)
Lemma get_connection_atomic (body : action A) ε w :
  match get_connection body ε w with
  | (Ok _, w') => ∃ w0, committed w' = working (run body ε w0).2 ∧
                        working w0 = committed w
  | (_, w') => committed w' = committed w
  end.
Proof.
  io_unfold.
  repeat (match goal with
          | |- context [faults ε ?c] => destruct (faults ε c); [done|]; cbn
          end).
  match goal with |- context [run body ε ?w0] =>
    pose proof (run_committed body ε w0) as Hc; set (w1 := w0) in *;
    destruct (run body ε w1) as [[a|e|] w'] eqn:Hrun end; cbn in *; try done.
  destruct (faults ε (calls w')); cbn; [done|].
  exists w1. by rewrite Hrun.
Qed.

Lemma get_connection_first_fault (body : action A) ε n e w :
  first_fault ε n e → (calls w ≤ n)%nat →
  (n < calls (get_connection body (quiet ε) w).2)%nat →
  ∃ w', get_connection body ε w = (Raised e, w') ∧ committed w' = committed w.
Proof.
  intros Hf Hw Hn.
  pose proof (get_connection_atomic body ε w) as Hat.
  cut (∃ w', get_connection body ε w = (Raised e, w')).
  { intros [w' Hw']. exists w'. by rewrite Hw' in Hat. }
  clear Hat. destruct Hf as [Hfn Hlt]. revert Hn. io_unfold.
  destruct (decide (calls w = n)) as [<-|?]; [rewrite Hfn; by eexists|].
  rewrite Hlt by lia; cbn.
  destruct (decide (S (calls w) = n)) as [<-|?]; [rewrite Hfn; by eexists|].
  rewrite Hlt by lia; cbn.
  destruct (decide (S (S (calls w)) = n)) as [<-|?]; [rewrite Hfn; by eexists|].
  rewrite Hlt by lia; cbn.
  match goal with |- context [run body (quiet ε) ?w0] =>
    destruct (run_first_fault body ε n e w0) as [[Hle Heq]|[_ [w' Heq]]];
      [done|cbn; lia| |] end.
  - rewrite Heq. destruct (run body (quiet ε) _) as [[a|e'|] w']; cbn in *;
      try (intros; lia).
    intros Hn. destruct (decide (calls w' = n)) as [<-|?].
    + rewrite Hfn. by eexists.
    + exfalso. lia.
  - intros _. rewrite Heq. by eexists.
Qed.

End Run.

(** ** The [review_schedule] table under the upsert *)

Section Upsert.
Variables (problem_id : string) (next_review : date) (days : Z) (today : date).

Let key : ReviewSchedule.t → string := ReviewSchedule.problem_id.
Let find (k : string) (rs : list ReviewSchedule.t) : option ReviewSchedule.t :=
  head (filter (λ r, ReviewSchedule.problem_id r = k) rs).
Let written (ease : Q) : ReviewSchedule.t :=
  ReviewSchedule.mk problem_id next_review days ease (Some today).
Let updated := on_conflict_update problem_id next_review days today.

Lemma find_Some k rs r : find k rs = Some r → r ∈ rs ∧ key r = k.
Proof.
  unfold find. intros H. apply head_Some in H as [l H].
  assert (r ∈ filter (λ r, ReviewSchedule.problem_id r = k) rs) as Hin
    by (rewrite H; left).
  by apply list_elem_of_filter in Hin as [? ?].
Qed.

Lemma find_None k rs : find k rs = None ↔ k ∉ map key rs.
Proof.
  unfold find, key. induction rs as [|r rs IH].
  - split; [intros _ H; by apply elem_of_nil in H|done].
  - rewrite filter_cons, fmap_cons. destruct (decide (ReviewSchedule.problem_id r = k)).
    + cbn. split; [done|]. intros H. exfalso. apply H. subst. left.
    + rewrite IH, not_elem_of_cons. split; [by split|by intros [_ ?]].
Qed.

Lemma find_unique k rs r r' :
  NoDup (map key rs) → r ∈ rs → key r = k → find k rs = Some r' → r' = r.
Proof.
  unfold find, key. induction rs as [|x rs IH]; intros Hnd Hin Hk Hf.
  - by apply elem_of_nil in Hin.
  - rewrite fmap_cons in Hnd.
    apply NoDup_cons in Hnd as [Hx Hnd]. rewrite filter_cons in Hf.
    apply elem_of_cons in Hin as [->|Hin].
    + rewrite decide_True in Hf by done. cbn in Hf. congruence.
    + destruct (decide (ReviewSchedule.problem_id x = k)) as [Hxk|Hxk].
      * exfalso. apply Hx. rewrite Hxk, <- Hk.
        apply list_elem_of_fmap. by exists r.
      * by apply IH.
Qed.

Lemma updated_keys rs : map key (updated rs) = map key rs.
Proof.
  unfold updated, key. induction rs as [|r rs IH]; cbn; [done|].
  destruct (decide (ReviewSchedule.problem_id r = problem_id)); cbn; congruence.
Qed.

Lemma updated_find rs r0 :
  find problem_id rs = Some r0 →
  find problem_id (updated rs) = Some (written (ReviewSchedule.ease_factor r0)).
Proof.
  unfold find, updated, written. induction rs as [|r rs IH]; [done|].
  rewrite filter_cons. unfold on_conflict_update; fold on_conflict_update.
  destruct (decide (ReviewSchedule.problem_id r = problem_id)).
  - intros [= ->]. by rewrite filter_cons, decide_True.
  - intros H. rewrite filter_cons, decide_False by done. by apply IH.
Qed.

Lemma updated_find_other k rs :
  k ≠ problem_id → find k (updated rs) = find k rs.
Proof.
  unfold find, updated. intros Hk. induction rs as [|r rs IH]; [done|].
  unfold on_conflict_update; fold on_conflict_update.
  destruct (decide (ReviewSchedule.problem_id r = problem_id)) as [Hr|Hr].
  - rewrite !filter_cons. rewrite !decide_False; [done|congruence|].
    unfold ReviewSchedule.problem_id at 1. congruence.
  - rewrite !filter_cons. destruct (decide _); [|done].
    unfold head in *. congruence.
Qed.

Lemma updated_elem r rs :
  r ∈ updated rs →
  r ∈ rs ∨ ∃ r0, r0 ∈ rs ∧ key r0 = problem_id ∧
                 r = written (ReviewSchedule.ease_factor r0).
Proof.
  unfold updated, written, key. induction rs as [|x rs IH]; cbn; [by left|].
  destruct (decide (ReviewSchedule.problem_id x = problem_id)) as [Hx|Hx].
  - intros [->|H]%elem_of_cons.
    + right. exists x. split; [left|done].
    + left. by right.
  - intros [->|H]%elem_of_cons; [left; left|].
    destruct (IH H) as [?|(r0 & ? & ? & ?)]; [left; by right|].
    right. exists r0. split; [by right|done].
Qed.

Lemma find_app_new k rs r :
  find k (rs ++ [r]) =
    match find k rs with
    | Some r' => Some r'
    | None => if decide (key r = k) then Some r else None
    end.
Proof.
  unfold find, key. rewrite filter_app.
  destruct (filter _ rs) as [|r' l]; [|done].
  rewrite app_nil_l, filter_cons. by destruct (decide _).
Qed.

(** What a successful upsert leaves in the store. *)
Lemma upsert_schedule_inr db db' :
  upsert_schedule problem_id next_review days today db = inr db' →
  problems db' = problems db ∧ submissions db' = submissions db ∧
  (∃ ease, select_schedule problem_id db' = Some (written ease) ∧
     match select_schedule problem_id db with
     | Some r0 => ease = ReviewSchedule.ease_factor r0 ∧
                  map key (review_schedule db') = map key (review_schedule db)
     | None => ease = (5 # 2)%Q ∧
               problem_id ∈ map Problem.id (problems db) ∧
               review_schedule db' = review_schedule db ++ [written ease]
     end) ∧
  (∀ k, k ≠ problem_id → select_schedule k db' = select_schedule k db) ∧
  (∀ r, r ∈ review_schedule db' →
        r ∈ review_schedule db ∨ ∃ ease, r = written ease).
Proof.
  unfold upsert_schedule.
  change (select_schedule problem_id db) with (find problem_id (review_schedule db)).
  destruct (find problem_id (review_schedule db)) as [r0|] eqn:Hsel.
  - intros [= <-]. cbn. repeat split.
    + exists (ReviewSchedule.ease_factor r0). split; [by apply updated_find|].
      split; [done|apply updated_keys].
    + intros k Hk. by apply updated_find_other.
    + intros r Hr. apply updated_elem in Hr as [?|(r1 & _ & _ & ->)]; eauto.
  - destruct (decide _) as [Hfk|]; [|done]. intros [= <-]. cbn. repeat split.
    + exists (5 # 2)%Q. split; [|done].
      change (find problem_id (review_schedule db ++ [written (5 # 2)%Q]) =
              Some (written (5 # 2)%Q)).
      rewrite find_app_new, Hsel. cbn. by rewrite decide_True.
    + intros k Hk.
      change (find k (review_schedule db ++ [written (5 # 2)%Q]) =
              find k (review_schedule db)).
      rewrite find_app_new. destruct (find k _); [done|].
      cbn. by rewrite decide_False.
    + intros r [?|Hr]%elem_of_app; [by left|right].
      apply list_elem_of_singleton in Hr. eauto.
Qed.

(** The upsert succeeds whenever the problem exists. *)
Lemma upsert_schedule_total db :
  problem_id ∈ map Problem.id (problems db) →
  ∃ db', upsert_schedule problem_id next_review days today db = inr db'.
Proof.
  intros H. unfold upsert_schedule.
  destruct (select_schedule _ _); [by eexists|].
  rewrite decide_True by done. by eexists.
Qed.

(** The upsert keeps the constraints of the schema. *)
Lemma upsert_schedule_schema_ok db db' :
  schema_ok db →
  upsert_schedule problem_id next_review days today db = inr db' →
  schema_ok db'.
Proof.
  intros [Hp Hpk Hfk] Hup.
  destruct (upsert_schedule_inr _ _ Hup) as (Hprob & _ & (ease & Hsel & Hcase) & _ & Helem).
  split.
  - by rewrite Hprob.
  - destruct (select_schedule problem_id db) eqn:Hold.
    + destruct Hcase as [_ Hkeys]. unfold key in Hkeys. by rewrite Hkeys.
    + destruct Hcase as (_ & _ & ->). rewrite map_app. cbn.
      apply NoDup_app. split; [done|]. split; [|apply NoDup_singleton].
      intros k Hk ->%list_elem_of_singleton.
      by apply (find_None problem_id (review_schedule db)) in Hold.
  - intros r Hr. rewrite Hprob. apply Helem in Hr as [?|[ease' ->]]; [by apply Hfk|].
    cbn. destruct (select_schedule problem_id db) as [r0|] eqn:Hold.
    + apply find_Some in Hold as [Hin <-]. by apply Hfk.
    + by destruct Hcase as (_ & ? & _).
Qed.

End Upsert.

(** ** [update_review_schedule], statement by statement *)

Lemma timedelta_inr days delta : timedelta days = inr delta → delta = days.
Proof. unfold timedelta. destruct (decide _); congruence. Qed.

Lemma date_add_inr d delta d' :
  date_add d delta = inr d' → d' = d + delta ∧ valid_date d'.
Proof.
  unfold date_add, valid_date. destruct (decide _); [|done].
  intros [= <-]. done.
Qed.

Lemma date_add_days d days :
  valid_date d → valid_date (d + days) →
  timedelta days = inr days ∧ date_add d days = inr (d + days).
Proof.
  unfold valid_date, timedelta, date_add, date_min, date_max, timedelta_max_days.
  intros Hd Hn. rewrite !decide_True; [done|lia|lia].
Qed.

(** On a store that never fails. *)
Lemma update_review_schedule_quiet today problem_id success db :
  call (update_review_schedule problem_id success) (on_day today) db =
    let days := new_interval success (select_schedule problem_id db) in
    match timedelta days with
    | inl e => (Raised e, db)
    | inr delta =>
        match date_add today delta with
        | inl e => (Raised e, db)
        | inr next_review =>
            match upsert_schedule problem_id next_review days today db with
            | inl e => (Raised e, db)
            | inr db' =>
                (Ok {| next_review_date := next_review;
                       interval_days := days |}, db')
            end
        end
    end.
Proof.
  unfold update_review_schedule. io_unfold.
  destruct (timedelta _) as [e|delta]; cbn; [done|].
  destruct (date_add _ _) as [e|next]; cbn; [done|].
  destruct (upsert_schedule _ _ _ _ _) as [e|db']; cbn; done.
Qed.

(** Whatever the store does: the call either raises and leaves the store as
    it was, or returns after exactly one upsert of the new record. *)
Lemma update_review_schedule_cases ε problem_id success db :
  let today := clock ε 0 in
  let days := new_interval success (select_schedule problem_id db) in
  match call (update_review_schedule problem_id success) ε db with
  | (Ok r, db') =>
      valid_date (today + days) ∧
      upsert_schedule problem_id (today + days) days today db = inr db' ∧
      r = {| next_review_date := today + days; interval_days := days |}
  | (Raised _, db') => db' = db
  | (OutOfFuel, _) => False
  end.
Proof.
  unfold update_review_schedule. io_unfold.
  repeat (match goal with
          | |- context [faults ε ?c] => destruct (faults ε c); [done|]; cbn
          end).
  destruct (timedelta _) as [e|delta] eqn:Hdelta; cbn; [done|].
  apply timedelta_inr in Hdelta as ->.
  destruct (date_add _ _) as [e|next] eqn:Hnext; cbn; [done|].
  apply date_add_inr in Hnext as [-> Hvalid].
  destruct (faults ε 4); [done|]; cbn.
  destruct (upsert_schedule _ _ _ _ _) as [e|db'] eqn:Hup; cbn; [done|].
  destruct (faults ε 5); [done|]; cbn. done.
Qed.

Lemma update_review_schedule_returns today problem_id success db :
  let days := new_interval success (select_schedule problem_id db) in
  problem_id ∈ map Problem.id (problems db) →
  valid_date today → valid_date (today + days) →
  ∃ db',
    upsert_schedule problem_id (today + days) days today db = inr db' ∧
    call (update_review_schedule problem_id success) (on_day today) db =
      (Ok {| next_review_date := today + days; interval_days := days |}, db').
Proof.
  intros days Hfk Htoday Hnext.
  destruct (upsert_schedule_total problem_id (today + days) days today db Hfk)
    as [db' Hup].
  exists db'. split; [done|].
  rewrite update_review_schedule_quiet. cbv zeta. fold days.
  destruct (date_add_days today days Htoday Hnext) as [-> ->]. by rewrite Hup.
Qed.

(** ** The interval sequence *)

Lemma interval_sequence_S n :
  interval_sequence (S (S (S n))) = interval_sequence (S (S n)) * 2.
Proof. done. Qed.

Lemma interval_sequence_ge_7 n : 7 ≤ interval_sequence (S (S n)).
Proof.
  induction n as [|n IH]; [done|]. rewrite interval_sequence_S. lia.
Qed.

Lemma interval_sequence_pos n : 1 ≤ interval_sequence n.
Proof.
  destruct n as [|[|n]]; [done|done|]. pose proof (interval_sequence_ge_7 n). lia.
Qed.

(** A success moves a record one step along the sequence. *)
Lemma new_interval_success_step n r :
  ReviewSchedule.interval_days r = interval_sequence n →
  new_interval true (Some r) = interval_sequence (S n).
Proof.
  intros H. unfold new_interval. rewrite H.
  destruct n as [|[|n]]; [done|done|].
  pose proof (interval_sequence_ge_7 n).
  rewrite !decide_False by lia. by rewrite interval_sequence_S.
Qed.

Lemma new_interval_in_sequence success row :
  (∀ r, row = Some r → ∃ n, ReviewSchedule.interval_days r = interval_sequence n) →
  ∃ n, new_interval success row = interval_sequence n.
Proof.
  intros H. destruct success; [|by exists 0%nat].
  destruct row as [r|]; [|by exists 0%nat].
  destruct (H r eq_refl) as [n Hn]. exists (S n).
  by apply new_interval_success_step.
Qed.

Lemma new_interval_expected row :
  new_interval true row =
    expected_interval (ReviewSchedule.interval_days <$> row).
Proof.
  destruct row as [r|]; [|done]. cbn.
  destruct (decide (ReviewSchedule.interval_days r = 1)) as [->|H1]; [done|].
  destruct (decide (ReviewSchedule.interval_days r = 3)) as [->|H3]; [done|].
  destruct (ReviewSchedule.interval_days r) as [|[p|p|]|p]; try done;
    destruct p as [p|p|]; done.
Qed.

(** A call that returns has stored exactly what it returns. *)
Lemma update_review_schedule_stored today problem_id success db :
  let days := new_interval success (select_schedule problem_id db) in
  problem_id ∈ map Problem.id (problems db) →
  valid_date today → valid_date (today + days) →
  ∃ db' ease,
    call (update_review_schedule problem_id success) (on_day today) db =
      (Ok {| next_review_date := today + days; interval_days := days |}, db') ∧
    select_schedule problem_id db' =
      Some (ReviewSchedule.mk problem_id (today + days) days ease (Some today)) ∧
    problems db' = problems db.
Proof.
  intros days Hfk Htoday Hnext.
  destruct (update_review_schedule_returns today problem_id success db
              Hfk Htoday Hnext) as (db' & Hup & Hcall).
  apply upsert_schedule_inr in Hup as (Hp & _ & (ease & Hsel & _) & _).
  by exists db', ease.
Qed.

(** Successive successes walk along the sequence, from wherever the record
    stands. *)
Lemma successive_successes n problem_id days db :
  problem_id ∈ map Problem.id (problems db) →
  ReviewSchedule.interval_days <$> select_schedule problem_id db =
    match n with O => None | S m => Some (interval_sequence m) end →
  (∀ k d, days !! k = Some d →
          valid_date d ∧ valid_date (d + interval_sequence (n + k))) →
  (record_outcomes problem_id (map (pair true) days) db).1 =
    imap (λ k d, Ok {| next_review_date := d + interval_sequence (n + k);
                       interval_days := interval_sequence (n + k) |}) days.
Proof.
  revert n db. induction days as [|d days IH]; intros n db Hfk Hprior Hdays.
  { done. }
  assert (new_interval true (select_schedule problem_id db) =
          interval_sequence n) as Hnew.
  { destruct n as [|m], (select_schedule problem_id db) as [r|]; try done.
    apply new_interval_success_step. by injection Hprior. }
  destruct (Hdays 0%nat d eq_refl) as [Hd Hnext].
  rewrite Nat.add_0_r in Hnext.
  destruct (update_review_schedule_stored d problem_id true db)
    as (db' & ease & Hcall & Hsel & Hp); [done|done|by rewrite Hnew|].
  rewrite Hnew in Hcall, Hsel.
  cbn [map record_outcomes]. rewrite Hcall.
  specialize (IH (S n) db').
  destruct (record_outcomes problem_id (map (pair true) days) db')
    as [rs db''] eqn:Hrest.
  cbn [fst] in *. rewrite imap_cons, Nat.add_0_r. f_equal.
  rewrite IH.
  - apply imap_ext. intros k d' _. cbn. by rewrite Nat.add_succ_r.
  - by rewrite Hp.
  - by rewrite Hsel.
  - intros k d' Hk. rewrite Nat.add_succ_l, <- Nat.add_succ_r.
    by apply (Hdays (S k)).
Qed.

(** ** The queries leave the store alone *)

Lemma exec_reads_only {B} (q : statement B) db b db' :
  reads_only q → exec q db = inr (b, db') → db' = db.
Proof. destruct q; cbn; try done; congruence. Qed.

Lemma run_read_only {A} (m : action A) ε w :
  read_only m → working (run m ε w).2 = working w.
Proof.
  revert w. induction m as [a|e| |k IH|B q k IH]; intros w Hm; cbn; try done.
  - by rewrite IH.
  - destruct Hm as [Hq Hk]. destruct (faults ε (calls w)); [done|].
    destruct (exec q (working w)) as [e|[b db']] eqn:Hexec; [done|].
    rewrite IH by done. cbn. by eapply exec_reads_only.
Qed.

Lemma read_only_bind {A B} (m : action A) (f : A → action B) :
  read_only m → (∀ a, read_only (f a)) → read_only (action_bind m f).
Proof.
  intros Hm Hf. induction m as [a|e| |k IH|B' q k IH]; cbn in *; try done.
  - intros d. by apply IH.
  - destruct Hm as [Hq Hk]. split; [done|]. intros b. by apply IH.
Qed.

Lemma streak_loop_read_only fuel check_date streak :
  read_only (streak_loop fuel check_date streak).
Proof.
  revert check_date streak. induction fuel as [|fuel IH]; intros d s; [done|].
  cbn. split; [done|]. intros count.
  destruct (decide (count = 0)); [done|].
  unfold mbind, action_mbind, lift.
  destruct (timedelta 1) as [e|delta]; cbn; [done|].
  destruct (date_add d (- delta)) as [e|d']; cbn; [done|]. apply IH.
Qed.

Lemma get_connection_read_only {A} (body : action A) ε w :
  read_only body → committed (get_connection body ε w).2 = committed w.
Proof.
  intros Hbody. pose proof (get_connection_atomic body ε w) as Hat.
  destruct (get_connection body ε w) as [[a|e|] w']; cbn; try done.
  destruct Hat as (w0 & -> & <-). by apply run_read_only.
Qed.

Lemma get_due_reviews_store ε db : (call get_due_reviews ε db).2 = db.
Proof.
  unfold call, get_due_reviews, mbind, io_mbind, io_bind, today_io.
  match goal with |- context [get_connection ?b ε ?w] =>
    pose proof (get_connection_read_only b ε w) as H;
    destruct (get_connection b ε w) as [r w'] end.
  cbn in *. apply H. split; [done|done].
Qed.

Lemma get_success_rate_store ε problem_id db :
  (call (get_success_rate problem_id) ε db).2 = db.
Proof.
  unfold call, get_success_rate.
  match goal with |- context [get_connection ?b ε ?w] =>
    pose proof (get_connection_read_only b ε w) as H;
    destruct (get_connection b ε w) as [r w'] end.
  cbn in *. apply H. split; [done|done].
Qed.

Lemma get_review_stats_store ε fuel db :
  (call (get_review_stats fuel) ε db).2 = db.
Proof.
  unfold call, get_review_stats, mbind, io_mbind, io_bind, today_io.
  match goal with |- context [get_connection ?b ε ?w] =>
    pose proof (get_connection_read_only b ε w) as H;
    destruct (get_connection b ε w) as [r w'] end.
  cbn in *. apply H.
  repeat (split; [done|]; intros ?). intros ?.
  apply read_only_bind; [apply streak_loop_read_only|done].
Qed.

(** ** The join and the due list *)

Lemma join_schedule_elem db p rs :
  (p, rs) ∈ join_schedule db ↔
  p ∈ problems db ∧ rs ∈ review_schedule db ∧
  Problem.id p = ReviewSchedule.problem_id rs.
Proof.
  unfold join_schedule. rewrite list_elem_of_bind. split.
  - intros (rs' & Hin & Hrs). apply list_elem_of_bind in Hin as (p' & Hin & Hp).
    apply list_elem_of_ret in Hin as [= -> ->].
    apply list_elem_of_filter in Hp as [? ?]. done.
  - intros (Hp & Hrs & Hid). exists rs. split; [|done].
    apply list_elem_of_bind. exists p. split; [by apply list_elem_of_ret|].
    by apply list_elem_of_filter.
Qed.

(** A primary key selects one row. *)
Lemma filter_primary_key (ps : list Problem.t) k :
  NoDup (map Problem.id ps) → k ∈ map Problem.id ps →
  ∃ p, filter (λ p, Problem.id p = k) ps = [p].
Proof.
  induction ps as [|p ps IH]; intros Hnd Hk.
  - by apply elem_of_nil in Hk.
  - rewrite fmap_cons in Hnd, Hk. apply NoDup_cons in Hnd as [Hp Hnd].
    rewrite filter_cons. destruct (decide (Problem.id p = k)) as [<-|Hne].
    + exists p. f_equal. apply elem_of_nil_inv.
      intros p' [Heq Hp']%list_elem_of_filter. apply Hp. rewrite <- Heq.
      apply list_elem_of_fmap. by exists p'.
    + apply IH; [done|]. by apply elem_of_cons in Hk as [?|?].
Qed.

(** Under the schema every schedule record joins exactly one problem. *)
Lemma join_schedule_snd db :
  schema_ok db → (join_schedule db).*2 = review_schedule db.
Proof.
  intros [Hpk _ Hfk]. unfold join_schedule.
  induction (review_schedule db) as [|rs l IH]; [done|].
  rewrite bind_cons, fmap_app, IH.
  - destruct (filter_primary_key (problems db) (ReviewSchedule.problem_id rs))
      as [p ->]; [done|apply Hfk; left|done].
  - intros r Hr. apply Hfk. by right.
Qed.

Lemma filter_snd {A B} (P : B → Prop) `{∀ b, Decision (P b)} (l : list (A * B)) :
  (filter (λ x, P x.2) l).*2 = filter P l.*2.
Proof.
  induction l as [|[a b] l IH]; [done|].
  rewrite fmap_cons, !filter_cons. cbn.
  destruct (decide (P b)); cbn; by rewrite IH.
Qed.

Lemma due_rows_elem today db p rs :
  (p, rs) ∈ due_rows today db ↔
  p ∈ problems db ∧ rs ∈ review_schedule db ∧
  Problem.id p = ReviewSchedule.problem_id rs ∧
  ReviewSchedule.next_review_date rs ≤ today.
Proof.
  unfold due_rows. rewrite merge_sort_Permutation.
  rewrite list_elem_of_filter, join_schedule_elem. cbn. tauto.
Qed.

Lemma get_due_reviews_quiet today db :
  call get_due_reviews (on_day today) db = (Ok (due_rows today db).*1, db).
Proof. done. Qed.

(** Closed decidable goals, by evaluation. *)
Ltac by_decide :=
  match goal with
  | |- ?P => let D := constr:(_ : Decision P) in
             apply (@bool_decide_unpack P D); vm_compute; exact I
  end.

Lemma two_due_db_schema_ok : schema_ok two_due_db.
Proof.
  split.
  - by_decide.
  - by_decide.
  - intros r Hr. unfold two_due_db in Hr. cbn in Hr.
    repeat (apply elem_of_cons in Hr as [->|Hr]; [by_decide|]).
    by apply elem_of_nil in Hr.
Qed.

(** ** The streak loop *)

Lemma count_last_reviewed_0 d db :
  count_last_reviewed d db = 0 ↔ ¬ reviewed_on db d.
Proof.
  unfold count_last_reviewed, reviewed_on. split.
  - intros H (r & Hr & Hd).
    assert (length (filter (λ r, ReviewSchedule.last_reviewed r = Some d)
                           (review_schedule db)) = 0%nat) as Hlen by lia.
    apply nil_length_inv in Hlen.
    by apply (filter_nil_not_elem_of _ _ r Hlen).
  - intros H. replace (filter _ _) with (@nil ReviewSchedule.t); [done|].
    symmetry. apply elem_of_nil_inv.
    intros r [Hd Hr]%list_elem_of_filter. apply H. by exists r.
Qed.

(** [n] days in a row with a review, then a day without one: the loop
    counts [n] more and stops, having only read. *)
Lemma streak_loop_quiet (n : nat) fuel check_date streak today w :
  (n < fuel)%nat →
  check_date ≤ date_max + 1 → date_min ≤ check_date - Z.of_nat n →
  (∀ i : nat, (i < n)%nat → reviewed_on (working w) (check_date - Z.of_nat i)) →
  ¬ reviewed_on (working w) (check_date - Z.of_nat n) →
  ∃ w', run (streak_loop fuel check_date streak) (on_day today) w =
          (Ok (streak + Z.of_nat n), w') ∧
        working w' = working w ∧ committed w' = committed w.
Proof.
  revert fuel check_date streak w.
  induction n as [|n IH]; intros fuel d s w Hfuel Hmax Hmin Hrun Hstop;
    (destruct fuel as [|fuel]; [lia|]); cbn [streak_loop];
    unfold mbind, action_mbind, execute; cbn.
  - rewrite Z.sub_0_r in Hstop. apply count_last_reviewed_0 in Hstop.
    rewrite decide_True by done. cbn. eexists. rewrite Z.add_0_r. done.
  - assert (count_last_reviewed d (working w) ≠ 0) as Hcount.
    { rewrite count_last_reviewed_0. intros H. apply H.
      specialize (Hrun 0%nat). rewrite Z.sub_0_r in Hrun. apply Hrun. lia. }
    rewrite decide_False by done.
    assert (timedelta 1 = inr 1) as -> by done. cbn.
    assert (date_add d (- (1)) = inr (d - 1)) as ->.
    { unfold date_add. rewrite decide_True; [done|lia]. }
    cbn. destruct (IH fuel (d - 1) (s + 1) (set_working (working w) (called w)))
      as (w' & Hrun' & Hw & Hc).
    + lia.
    + lia.
    + lia.
    + intros i Hi. cbn. replace (d - 1 - Z.of_nat i) with (d - Z.of_nat (S i)) by lia.
      apply Hrun. lia.
    + cbn. by replace (d - 1 - Z.of_nat n) with (d - Z.of_nat (S n)) by lia.
    + exists w'. rewrite Hrun'. split; [f_equal; f_equal; lia|done].
Qed.

Lemma get_review_stats_quiet (n : nat) fuel today db :
  (n < fuel)%nat → valid_date today → date_min ≤ today - Z.of_nat n →
  (∀ i : nat, (i < n)%nat → reviewed_on db (today - Z.of_nat i)) →
  ¬ reviewed_on db (today - Z.of_nat n) →
  call (get_review_stats fuel) (on_day today) db =
    (Ok {| due_today := count_due today db;
           total_reviewed := count_reviewed db;
           graded_counts := (default 0 (graded_totals (graded db)).2,
                             (graded_totals (graded db)).1);
           current_streak := Z.of_nat n |}, db).
Proof.
  intros Hfuel [_ Hmax] Hmin Hrun Hstop.
  unfold get_review_stats. io_unfold. rewrite run_bind.
  match goal with |- context [run (streak_loop fuel today 0) _ ?w] =>
    destruct (streak_loop_quiet n fuel today 0 today w)
      as (w' & -> & Hw & Hc); [done|lia|done|done|done|] end.
  cbn in *. by rewrite Hw.
Qed.

(** ** Every store has a streak

    The days with a review are finitely many, so walking back from any day
    one meets a day without a review after at most as many steps as there
    are records: the hypotheses of the streak theorem describe every store. *)

Lemma first_gap (P : nat → Prop) `{∀ n, Decision (P n)} (n : nat) :
  (∀ i, (i < n)%nat → P i) ∨
  ∃ m, (m < n)%nat ∧ ¬ P m ∧ ∀ i, (i < m)%nat → P i.
Proof.
  induction n as [|n [IH|IH]].
  - left. intros i Hi. lia.
  - destruct (decide (P n)) as [Hn|Hn].
    + left. intros i Hi. destruct (decide (i = n)) as [->|]; [done|].
      apply IH. lia.
    + right. exists n. split; [lia|done].
  - right. destruct IH as (m & Hm & Hgap). exists m. split; [lia|done].
Qed.

Lemma reviewed_on_dates db d :
  reviewed_on db d ↔ d ∈ omap ReviewSchedule.last_reviewed (review_schedule db).
Proof. unfold reviewed_on. by rewrite list_elem_of_omap. Qed.

Lemma length_last_reviewed (rs : list ReviewSchedule.t) :
  (length (omap ReviewSchedule.last_reviewed rs) ≤ length rs)%nat.
Proof.
  induction rs as [|r rs IH]; [done|]. cbn.
  destruct (ReviewSchedule.last_reviewed r); cbn; lia.
Qed.

Lemma streak_exists db today :
  ∃ n : nat, (n ≤ length (review_schedule db))%nat ∧
    (∀ i : nat, (i < n)%nat → reviewed_on db (today - Z.of_nat i)) ∧
    ¬ reviewed_on db (today - Z.of_nat n).
Proof.
  set (len := length (review_schedule db)).
  assert (∀ i, Decision (reviewed_on db (today - Z.of_nat i))) as Hdec.
  { intros i.
    refine (cast_if (decide (today - Z.of_nat i ∈
                               omap ReviewSchedule.last_reviewed
                                    (review_schedule db))));
      by rewrite reviewed_on_dates. }
  destruct (first_gap (λ i, reviewed_on db (today - Z.of_nat i)) (S len))
    as [Hall|(m & Hm & Hgap & Hrun)].
  - exfalso.
    set (walked := (λ i, today - Z.of_nat i) <$> seq 0 (S len)).
    assert (length walked ≤ len)%nat as Hlen; [|unfold walked in Hlen;
      rewrite length_fmap, length_seq in Hlen; lia].
    etrans; [apply submseteq_length, NoDup_submseteq|apply length_last_reviewed].
    + apply NoDup_fmap_2; [intros i j Hij; lia|apply NoDup_seq].
    + intros d (i & -> & Hi%elem_of_seq)%list_elem_of_fmap.
      apply reviewed_on_dates, Hall. lia.
  - exists m. split; [lia|done].
Qed.

(** With a budget above the number of records the loop always comes to its
    end, unless it walks off the first day of the calendar. *)
Lemma get_review_stats_returns db today fuel :
  valid_date today →
  date_min ≤ today - Z.of_nat (length (review_schedule db)) →
  (length (review_schedule db) < fuel)%nat →
  ∃ stats, call (get_review_stats fuel) (on_day today) db = (Ok stats, db).
Proof.
  intros Htoday Hmin Hfuel.
  destruct (streak_exists db today) as (n & Hn & Hrun & Hstop).
  eexists. apply (get_review_stats_quiet n); [lia|done|lia|done|done].
Qed.

(** ** The success rate *)

(** [row["passed"] or 0] and [row["total"]], as two counts. *)
Lemma graded_totals_counts (rows : list Submission.t) :
  (default 0 (graded_totals rows).2, (graded_totals rows).1) =
    (Z.of_nat (length (filter (λ s, Submission.passed s = Some true) rows)),
     Z.of_nat (length rows)).
Proof. by destruct rows. Qed.

Lemma graded_for_passed problem_id db :
  filter (λ s, Submission.passed s = Some true) (graded_for problem_id db) =
    filter (λ s, Submission.problem_id s = problem_id ∧
                 Submission.passed s = Some true) (submissions db).
Proof.
  unfold graded_for. rewrite list_filter_filter. apply list_filter_iff.
  intros s. split; [tauto|]. intros [? Hp]. rewrite Hp. eauto.
Qed.

(** ** What [update_review_schedule] depends on *)

Lemma upsert_schedule_inl problem_id next_review days today db e :
  upsert_schedule problem_id next_review days today db = inl e →
  e = IntegrityError ∧ select_schedule problem_id db = None ∧
  problem_id ∉ map Problem.id (problems db).
Proof.
  unfold upsert_schedule. destruct (select_schedule problem_id db); [done|].
  destruct (decide _); [done|]. by intros [= <-].
Qed.

(** Two stores that agree on the record of the problem, and on whether the
    problem exists, take the upsert alike. *)
Lemma upsert_schedule_agree problem_id next_review days today db1 db2 :
  select_schedule problem_id db1 = select_schedule problem_id db2 →
  (problem_id ∈ map Problem.id (problems db1) ↔
   problem_id ∈ map Problem.id (problems db2)) →
  match upsert_schedule problem_id next_review days today db1,
        upsert_schedule problem_id next_review days today db2 with
  | inr db1', inr db2' =>
      select_schedule problem_id db1' = select_schedule problem_id db2'
  | inl e1, inl e2 => e1 = e2
  | _, _ => False
  end.
Proof.
  intros Hsel Hfk.
  destruct (upsert_schedule _ _ _ _ db1) as [e1|db1'] eqn:H1,
           (upsert_schedule _ _ _ _ db2) as [e2|db2'] eqn:H2.
  - apply upsert_schedule_inl in H1 as [-> _], H2 as [-> _]. done.
  - apply upsert_schedule_inl in H1 as (_ & Hnone & Hnot).
    apply upsert_schedule_inr in H2 as (_ & _ & (ease & _ & Hcase) & _).
    rewrite <- Hsel, Hnone in Hcase. destruct Hcase as (_ & Hin & _).
    by apply Hnot, Hfk.
  - apply upsert_schedule_inl in H2 as (_ & Hnone & Hnot).
    apply upsert_schedule_inr in H1 as (_ & _ & (ease & _ & Hcase) & _).
    rewrite Hsel, Hnone in Hcase. destruct Hcase as (_ & Hin & _).
    by apply Hnot, Hfk.
  - apply upsert_schedule_inr in H1 as (_ & _ & (ease1 & -> & Hcase1) & _).
    apply upsert_schedule_inr in H2 as (_ & _ & (ease2 & -> & Hcase2) & _).
    rewrite Hsel in Hcase1.
    destruct (select_schedule problem_id db2);
      destruct Hcase1 as [-> _], Hcase2 as [-> _]; done.
Qed.

(** ** Failures of the store *)

Lemma call_get_connection_first_fault {A} (body : action A) ε db n e :
  first_fault ε n e →
  (n < store_calls (get_connection body) (quiet ε) db)%nat →
  call (get_connection body) ε db = (Raised e, db).
Proof.
  intros Hf Hn. unfold call, store_calls in *.
  destruct (get_connection_first_fault body ε n e (boot db) Hf)
    as (w' & -> & Hc); [cbn; lia|done|]. by rewrite Hc.
Qed.

Lemma call_today_get_connection_first_fault {A} (body : date → action A)
    ε db n e :
  first_fault ε n e →
  (n < store_calls (today ← today_io; get_connection (body today))
                   (quiet ε) db)%nat →
  call (today ← today_io; get_connection (body today)) ε db = (Raised e, db).
Proof.
  intros Hf Hn.
  unfold call, store_calls, mbind, io_mbind, io_bind, today_io in *.
  cbn -[get_connection] in *.
  destruct (get_connection_first_fault (body (clock ε 0%nat)) ε n e
              (tick (boot db)) Hf) as (w' & -> & Hc); [cbn; lia|done|].
  by rewrite Hc.
Qed.

(** ** Intervals are at least one day *)

Lemma new_interval_pos success row :
  (∀ prior, row = Some prior → 1 ≤ ReviewSchedule.interval_days prior) →
  1 ≤ new_interval success row.
Proof.
  intros H. unfold new_interval. destruct success; [|done].
  destruct row as [prior|]; [|done]. specialize (H prior eq_refl).
  repeat (destruct (decide _); [done|]). lia.
Qed.

(** ** The scenarios of the specification and of the test suite *)

(** Solved on 2024-01-01, solved on 2024-01-02, struggled on 2024-01-05. *)
Example scenario_solved_solved_struggled :
  (record_outcomes two_sum
     [(true, jan_1_2024); (true, 738887); (false, 738890)] fresh_db).1 =
  [Ok {| next_review_date := 738887; interval_days := 1 |};
   Ok {| next_review_date := 738890; interval_days := 3 |};
   Ok {| next_review_date := 738891; interval_days := 1 |}].
Proof. by vm_compute. Qed.

(** [test_struggle_then_success_restarts_progression] *)
Example scenario_restart_after_struggle :
  last (record_outcomes two_sum
          [(true, jan_1_2024); (true, jan_1_2024); (false, jan_1_2024);
           (true, jan_1_2024)] fresh_db).1 =
  Some (Ok {| next_review_date := 738889; interval_days := 3 |}).
Proof. by vm_compute. Qed.

(** A problem that is not in [problems] cannot get a schedule: the foreign
    key makes the upsert raise, and nothing is stored. *)
Example scenario_unknown_problem :
  call (update_review_schedule "no-such-problem" true) (on_day jan_1_2024)
       fresh_db = (Raised IntegrityError, fresh_db).
Proof. by vm_compute. Qed.

(** On the last day of the calendar there is no tomorrow to schedule. *)
Example scenario_last_day :
  call (update_review_schedule two_sum false) (on_day date_max) fresh_db =
    (Raised OverflowError, fresh_db).
Proof. by vm_compute. Qed.

(** ** Properties of the schedule *)

(** C1: on a store that does not fail, for every prior state of the schedule
    (a record or none) of an existing problem, and every day [today] before
    [date.max], a failing outcome returns and stores [interval_days = 1] and
    [next_review_date = today + 1]; a success recorded next (on any day
    [today'] with [today' + 3] a date) returns the interval 3, whatever the
    interval before the failure was. *)
Theorem failure_resets_interval db problem_id today :
  problem_id ∈ map Problem.id (problems db) →
  date_min ≤ today < date_max →
  ∃ db' ease,
    call (update_review_schedule problem_id false) (on_day today) db =
      (Ok {| next_review_date := today + 1; interval_days := 1 |}, db') ∧
    select_schedule problem_id db' =
      Some (ReviewSchedule.mk problem_id (today + 1) 1 ease (Some today)) ∧
    ∀ today', valid_date today' → valid_date (today' + 3) →
      (call (update_review_schedule problem_id true) (on_day today') db').1 =
        Ok {| next_review_date := today' + 3; interval_days := 3 |}.
Proof.
  intros Hfk Htoday.
  destruct (update_review_schedule_stored today problem_id false db)
    as (db' & ease & Hcall & Hsel & Hp); [done|..].
  { unfold valid_date in *. lia. }
  { unfold valid_date in *. cbn. lia. }
  exists db', ease. cbn in Hcall, Hsel. split; [done|]. split; [done|].
  intros today' Hd Hd3.
  destruct (update_review_schedule_stored today' problem_id true db')
    as (db'' & ease' & Hcall' & _); [by rewrite Hp|done|..].
  { by rewrite Hsel. }
  rewrite Hcall'. by rewrite Hsel.
Qed.

Lemma failure_resets_interval_witness :
  ∃ db' ease,
    call (update_review_schedule two_sum false) (on_day jan_1_2024)
      (mk_database example_problems []
         [ReviewSchedule.mk two_sum 738900 28 (5 # 2)%Q (Some 738872)]) =
      (Ok {| next_review_date := jan_1_2024 + 1; interval_days := 1 |}, db') ∧
    select_schedule two_sum db' =
      Some (ReviewSchedule.mk two_sum (jan_1_2024 + 1) 1 ease
              (Some jan_1_2024)) ∧
    ∀ today', valid_date today' → valid_date (today' + 3) →
      (call (update_review_schedule two_sum true) (on_day today') db').1 =
        Ok {| next_review_date := today' + 3; interval_days := 3 |}.
Proof.
  apply failure_resets_interval.
  - cbn. left.
  - unfold date_min, date_max, jan_1_2024. lia.
Defined.

(** C2, as the code has it: on a store that does not fail, a success on an
    existing problem returns and stores the interval 1 when there is no prior
    record, 3 when the prior interval is 1, 7 when it is 3 and twice the
    prior interval otherwise, as long as [today] plus that interval is a
    date; successes in a row on a problem without a record return the
    intervals 1, 3, 7, 14, 28, 56, ... in that order (each twice the one
    before from the fourth on), as long as each next review date is a
    date. *)
Theorem success_interval_progression db problem_id today days :
  problem_id ∈ map Problem.id (problems db) →
  valid_date today →
  valid_date (today + expected_interval
                        (ReviewSchedule.interval_days <$>
                           select_schedule problem_id db)) →
  (∀ k d, days !! k = Some d →
          valid_date d ∧ valid_date (d + interval_sequence k)) →
  (∃ db' ease,
     let interval :=
       expected_interval
         (ReviewSchedule.interval_days <$> select_schedule problem_id db) in
     call (update_review_schedule problem_id true) (on_day today) db =
       (Ok {| next_review_date := today + interval;
              interval_days := interval |}, db') ∧
     select_schedule problem_id db' =
       Some (ReviewSchedule.mk problem_id (today + interval) interval ease
               (Some today))) ∧
  (select_schedule problem_id db = None →
   (record_outcomes problem_id (map (pair true) days) db).1 =
     imap (λ k d, Ok {| next_review_date := d + interval_sequence k;
                        interval_days := interval_sequence k |}) days) ∧
  interval_sequence <$> seq 0 6 = [1; 3; 7; 14; 28; 56] ∧
  ∀ n, interval_sequence (3 + n) = interval_sequence (2 + n) * 2.
Proof.
  intros Hfk Htoday Hnext Hdays. split; [|split; [|done]].
  - rewrite <- new_interval_expected in *.
    destruct (update_review_schedule_stored today problem_id true db)
      as (db' & ease & Hcall & Hsel & _); [done..|].
    by exists db', ease.
  - intros Hnone.
    apply (successive_successes 0); [done|by rewrite Hnone|done].
Qed.

(** C2, as the specification states it, fails: the doubling does not go on
    for ever.  Marked solved 22 times on 2024-01-01, a problem without a
    record gets the intervals 1, 3, 7, ..., 1835008 and then an
    OverflowError, since 2024-01-01 plus 3670016 days is past [date.max]. *)
Lemma success_progression_overflows :
  (record_outcomes two_sum (map (pair true) (replicate 22 jan_1_2024))
     fresh_db).1 !! 21%nat = Some (Raised OverflowError) ∧
  (record_outcomes two_sum (map (pair true) (replicate 22 jan_1_2024))
     fresh_db).1 ≠
    imap (λ k d, Ok {| next_review_date := d + interval_sequence k;
                       interval_days := interval_sequence k |})
         (replicate 22 jan_1_2024).
Proof.
  split; [by vm_compute|].
  intros H. apply (f_equal (λ l, l !! 21%nat)) in H. vm_compute in H.
  discriminate H.
Qed.

Lemma success_interval_progression_witness :
  (record_outcomes two_sum
     (map (pair true) [jan_1_2024; 738887; 738890; 738897; 738911; 738939])
     fresh_db).1 =
  [Ok {| next_review_date := 738887; interval_days := 1 |};
   Ok {| next_review_date := 738890; interval_days := 3 |};
   Ok {| next_review_date := 738897; interval_days := 7 |};
   Ok {| next_review_date := 738911; interval_days := 14 |};
   Ok {| next_review_date := 738939; interval_days := 28 |};
   Ok {| next_review_date := 738995; interval_days := 56 |}].
Proof.
  refine (proj1 (proj2 (success_interval_progression fresh_db two_sum
                          jan_1_2024 _ _ _ _ _)) eq_refl).
  - left.
  - unfold valid_date, date_min, date_max, jan_1_2024. lia.
  - vm_compute. split; discriminate.
  - intros k d Hk.
    do 6 (destruct k as [|k];
          [injection Hk as <-; vm_compute; repeat split; discriminate|]).
    done.
Defined.

(** C3: in every store reachable from one without schedule records by calls
    of the scheduler (whatever the clock shows, whether or not the store
    fails), every record's [interval_days] is a member of the sequence
    1, 3, 7, 14, 28, 56, ... *)
Theorem reachable_interval_in_sequence db r :
  reachable db → r ∈ review_schedule db →
  ∃ n, ReviewSchedule.interval_days r = interval_sequence n.
Proof.
  intros Hreach. revert r.
  induction Hreach as [ps ss|db ε problem_id success _ IH|db ε _ IH
                      |db ε fuel _ IH|db ε problem_id _ IH]; intros r Hr.
  - by apply elem_of_nil in Hr.
  - pose proof (update_review_schedule_cases ε problem_id success db) as Hcases.
    destruct (call (update_review_schedule problem_id success) ε db)
      as [[res|e|] db']; cbn in *; [|subst; by apply IH|done].
    destruct Hcases as (_ & Hup & _).
    apply upsert_schedule_inr in Hup as (_ & _ & _ & _ & Helem).
    apply Helem in Hr as [Hr|[ease ->]]; [by apply IH|]. cbn.
    apply new_interval_in_sequence. intros r0 Hr0.
    apply find_Some in Hr0 as [Hin _]. by apply IH.
  - rewrite get_due_reviews_store in Hr. by apply IH.
  - rewrite get_review_stats_store in Hr. by apply IH.
  - rewrite get_success_rate_store in Hr. by apply IH.
Qed.

Lemma reachable_interval_in_sequence_witness :
  ∃ n, ReviewSchedule.interval_days
         (ReviewSchedule.mk two_sum 738890 3 (5 # 2)%Q (Some 738887)) =
       interval_sequence n.
Proof.
  apply (reachable_interval_in_sequence
           (record_outcomes two_sum [(true, jan_1_2024); (true, 738887)]
              fresh_db).2).
  - cbn [record_outcomes].
    destruct (call _ (on_day jan_1_2024) fresh_db) as [r1 db1] eqn:H1.
    destruct (call _ (on_day 738887) db1) as [r2 db2] eqn:H2.
    change db2 with (r2, db2).2. rewrite <- H2.
    change db1 with (r1, db1).2. rewrite <- H1.
    apply reachable_update, reachable_update, reachable_fresh.
  - vm_compute. left.
Defined.

(** C4: a call of [update_review_schedule] that returns has written
    [next_review_date], [interval_days] and [last_reviewed] of the problem's
    record in one upsert: the record then holds the returned values with
    [last_reviewed] the day the clock showed and
    [next_review_date = last_reviewed + interval_days]; it keeps its
    [ease_factor] (2.5 for a new record), and nothing else in the store
    differs. *)
Theorem update_replaces_record ε db problem_id success r db' :
  call (update_review_schedule problem_id success) ε db = (Ok r, db') →
  let today := clock ε 0 in
  ∃ row,
    select_schedule problem_id db' = Some row ∧
    ReviewSchedule.problem_id row = problem_id ∧
    ReviewSchedule.next_review_date row = next_review_date r ∧
    ReviewSchedule.interval_days row = interval_days r ∧
    ReviewSchedule.last_reviewed row = Some today ∧
    ReviewSchedule.next_review_date row =
      today + ReviewSchedule.interval_days row ∧
    ReviewSchedule.ease_factor row =
      match select_schedule problem_id db with
      | Some prior => ReviewSchedule.ease_factor prior
      | None => (5 # 2)%Q
      end ∧
    (∀ k, k ≠ problem_id → select_schedule k db' = select_schedule k db) ∧
    problems db' = problems db ∧ submissions db' = submissions db.
Proof.
  intros Hcall today.
  pose proof (update_review_schedule_cases ε problem_id success db) as Hcases.
  rewrite Hcall in Hcases. cbn in Hcases. destruct Hcases as (_ & Hup & ->).
  apply upsert_schedule_inr in Hup as (Hp & Hs & (ease & Hsel & Hease) & Hother & _).
  eexists. split; [exact Hsel|]. cbn. repeat split; try done.
  destruct (select_schedule problem_id db); by destruct Hease.
Qed.

Lemma update_replaces_record_witness :
  ∃ row,
    select_schedule two_sum
      (call (update_review_schedule two_sum true) (on_day jan_1_2024)
         fresh_db).2 = Some row ∧
    ReviewSchedule.next_review_date row =
      jan_1_2024 + ReviewSchedule.interval_days row.
Proof.
  destruct (update_replaces_record (on_day jan_1_2024) fresh_db two_sum true
              {| next_review_date := 738887; interval_days := 1 |}
              (call (update_review_schedule two_sum true) (on_day jan_1_2024)
                 fresh_db).2)
    as (row & Hsel & _ & _ & _ & _ & Hnext & _).
  - reflexivity.
  - exists row. split; [exact Hsel|exact Hnext].
Defined.

(** C5: on a store that does not fail and satisfies its schema,
    [get_due_reviews] returns the problems of exactly the schedule records
    with [next_review_date <= today], each record once, in ascending order
    of [next_review_date] (the order among equal dates is not fixed by the
    statement); with no schedule records it returns the empty list.  The
    store is unchanged. *)
Theorem due_reviews_exact db today :
  schema_ok db →
  ∃ rows : list (Problem.t * ReviewSchedule.t),
    call get_due_reviews (on_day today) db = (Ok rows.*1, db) ∧
    StronglySorted by_next_review_date rows ∧
    (∀ p rs, (p, rs) ∈ rows ↔
             p ∈ problems db ∧ rs ∈ review_schedule db ∧
             Problem.id p = ReviewSchedule.problem_id rs ∧
             ReviewSchedule.next_review_date rs ≤ today) ∧
    rows.*2 ≡ₚ filter (λ r, ReviewSchedule.next_review_date r ≤ today)
                      (review_schedule db) ∧
    (∀ p, p ∈ rows.*1 ↔
          p ∈ problems db ∧
          ∃ rs, rs ∈ review_schedule db ∧
                ReviewSchedule.problem_id rs = Problem.id p ∧
                ReviewSchedule.next_review_date rs ≤ today) ∧
    (review_schedule db = [] → rows.*1 = []).
Proof.
  intros Hschema. exists (due_rows today db).
  pose proof (due_rows_elem today db) as Hrows.
  split; [apply get_due_reviews_quiet|].
  split; [apply StronglySorted_merge_sort; apply _|].
  split; [exact Hrows|]. split; [|split].
  - unfold due_rows. rewrite merge_sort_Permutation.
    pose proof (filter_snd (λ r, ReviewSchedule.next_review_date r ≤ today)
                  (join_schedule db)) as Hsnd.
    cbn beta in Hsnd. rewrite Hsnd. by rewrite join_schedule_snd.
  - intros p. rewrite list_elem_of_fmap. split.
    + intros ([p' rs] & -> & Hin). apply Hrows in Hin as (? & ? & ? & ?).
      split; [done|]. by exists rs.
    + intros (Hp & rs & Hrs & Hid & Hdue). exists (p, rs).
      split; [done|]. by apply Hrows.
  - intros Hnil. unfold due_rows, join_schedule. by rewrite Hnil.
Qed.

Lemma due_reviews_exact_witness :
  ∃ rows : list (Problem.t * ReviewSchedule.t),
    call get_due_reviews (on_day 738887) two_due_db = (Ok rows.*1, two_due_db) ∧
    Problem.id <$> rows.*1 = [two_sum; valid_parens].
Proof.
  destruct (due_reviews_exact two_due_db 738887 two_due_db_schema_ok)
    as (rows & Hcall & _).
  exists rows. split; [exact Hcall|].
  rewrite get_due_reviews_quiet in Hcall. injection Hcall as <-.
  by vm_compute.
Defined.

(** C6: on a store that does not fail, if each of the [N] days ending at
    [today] has a record with that [last_reviewed] and the day before them
    (still a date) has none, the streak of [get_review_stats] is [N], and
    [N] is the largest number of consecutive reviewed days ending at
    [today]; with [N = 0]: the streak is 0 whenever no record has
    [last_reviewed = today], whatever the days before hold.  Any loop budget
    above [N] is enough, and the store is unchanged. *)
Theorem streak_counts_consecutive_days db today N fuel :
  valid_date today → 0 ≤ N → date_min ≤ today - N →
  (∀ i, 0 ≤ i < N → reviewed_on db (today - i)) →
  ¬ reviewed_on db (today - N) →
  (Z.to_nat N < fuel)%nat →
  (∃ stats, call (get_review_stats fuel) (on_day today) db = (Ok stats, db) ∧
            current_streak stats = N) ∧
  (∀ M, 0 ≤ M → (∀ i, 0 ≤ i < M → reviewed_on db (today - i)) → M ≤ N).
Proof.
  intros Htoday HN Hmin Hrun Hstop Hfuel. split.
  - eexists. split.
    + apply (get_review_stats_quiet (Z.to_nat N)); [done|done|lia| |].
      * intros i Hi. apply Hrun. lia.
      * by rewrite Z2Nat.id.
    + cbn. lia.
  - intros M HM Hall. destruct (decide (M ≤ N)) as [|Hgt]; [done|].
    exfalso. apply Hstop, Hall. lia.
Qed.

Lemma streak_counts_consecutive_days_witness :
  (∃ stats, call (get_review_stats 5) (on_day 738887) two_day_streak_db =
              (Ok stats, two_day_streak_db) ∧ current_streak stats = 2) ∧
  (∃ stats, call (get_review_stats 1) (on_day 738889) two_day_streak_db =
              (Ok stats, two_day_streak_db) ∧ current_streak stats = 0).
Proof.
  assert (∀ d, reviewed_on two_day_streak_db d → d = 738887 ∨ d = 738886)
    as Honly.
  { intros d (r & Hr & Hd). unfold two_day_streak_db in Hr. cbn in Hr.
    repeat (apply elem_of_cons in Hr as [->|Hr];
            [injection Hd as <-; (by left) || (by right)|]).
    by apply elem_of_nil in Hr. }
  split.
  - apply (streak_counts_consecutive_days two_day_streak_db 738887 2 5).
    + unfold valid_date, date_min, date_max. lia.
    + lia.
    + unfold date_min. lia.
    + intros i Hi. assert (i = 0 ∨ i = 1) as [->| ->] by lia.
      * eexists. split; [left|done].
      * eexists. split; [right; left|done].
    + intros [?|?]%Honly; lia.
    + cbn. lia.
  - apply (streak_counts_consecutive_days two_day_streak_db 738889 0 1).
    + unfold valid_date, date_min, date_max. lia.
    + lia.
    + unfold date_min. lia.
    + intros i Hi. lia.
    + intros [?|?]%Honly; lia.
    + cbn. lia.
Defined.

(** C7: on a store that does not fail, [get_success_rate] returns the number
    of submissions of the problem whose [passed] is true and the number of
    its submissions whose [passed] is not NULL, and leaves the store
    unchanged; for the history pass, fail, pass it returns (2, 3), and for
    one ungraded submission (0, 0). *)
Theorem success_rate_counts ε db problem_id :
  call (get_success_rate problem_id) (quiet ε) db =
    (Ok (Z.of_nat (length (filter
                             (λ s, Submission.problem_id s = problem_id ∧
                                   Submission.passed s = Some true)
                             (submissions db))),
         Z.of_nat (length (filter
                             (λ s, Submission.problem_id s = problem_id ∧
                                   is_Some (Submission.passed s))
                             (submissions db)))), db) ∧
  call (get_success_rate two_sum) (quiet ε) pass_fail_pass_db =
    (Ok (2, 3), pass_fail_pass_db) ∧
  call (get_success_rate two_sum) (quiet ε) ungraded_db =
    (Ok (0, 0), ungraded_db).
Proof.
  split; [|done].
  unfold get_success_rate. io_unfold.
  by rewrite graded_totals_counts, graded_for_passed.
Qed.

(** C8, as the code has it: [update_review_schedule] takes the problem and
    the outcome only and reads the day from the process clock
    ([date.today()]), once.  What it returns and the record it leaves for the
    problem are a function of the prior record of the problem, the outcome,
    that clock reading, whether the problem exists, and what the store does:
    two calls that agree on these agree on the result and on the stored
    record, whatever else the two stores hold. *)
Theorem update_review_schedule_deterministic ε1 ε2 db1 db2 problem_id success :
  clock ε1 0%nat = clock ε2 0%nat →
  (∀ n, faults ε1 n = faults ε2 n) →
  select_schedule problem_id db1 = select_schedule problem_id db2 →
  (problem_id ∈ map Problem.id (problems db1) ↔
   problem_id ∈ map Problem.id (problems db2)) →
  (call (update_review_schedule problem_id success) ε1 db1).1 =
    (call (update_review_schedule problem_id success) ε2 db2).1 ∧
  select_schedule problem_id
      (call (update_review_schedule problem_id success) ε1 db1).2 =
    select_schedule problem_id
      (call (update_review_schedule problem_id success) ε2 db2).2.
Proof.
  intros Hclock Hfaults Hsel Hfk.
  unfold update_review_schedule. io_unfold.
  repeat (match goal with
          | |- context [faults ε1 ?c] =>
              rewrite (Hfaults c); destruct (faults ε2 c); [done|]; cbn
          end).
  rewrite Hclock, Hsel.
  destruct (timedelta _) as [e|delta]; cbn; [done|].
  destruct (date_add _ _) as [e|next]; cbn; [done|].
  rewrite (Hfaults 4%nat). destruct (faults ε2 4); [done|]; cbn.
  pose proof (upsert_schedule_agree problem_id next
                (new_interval success (select_schedule problem_id db2))
                (clock ε2 0%nat) db1 db2 Hsel Hfk) as Hup.
  destruct (upsert_schedule _ _ _ _ db1) as [e1|db1'],
           (upsert_schedule _ _ _ _ db2) as [e2|db2']; cbn; try done.
  - by subst.
  - rewrite (Hfaults 5%nat). destruct (faults ε2 5); done.
Qed.

Lemma update_review_schedule_deterministic_witness :
  (call (update_review_schedule two_sum true) (on_day 738887) two_due_db).1 =
    (call (update_review_schedule two_sum true) (on_day 738887)
       (with_review_schedule two_due_db
          [ReviewSchedule.mk two_sum jan_1_2024 1 (5 # 2)%Q (Some 738885)])).1 ∧
  select_schedule two_sum
      (call (update_review_schedule two_sum true) (on_day 738887)
         two_due_db).2 =
    select_schedule two_sum
      (call (update_review_schedule two_sum true) (on_day 738887)
         (with_review_schedule two_due_db
            [ReviewSchedule.mk two_sum jan_1_2024 1 (5 # 2)%Q (Some 738885)])).2.
Proof.
  apply (update_review_schedule_deterministic (on_day 738887) (on_day 738887)
           two_due_db
           (with_review_schedule two_due_db
              [ReviewSchedule.mk two_sum jan_1_2024 1 (5 # 2)%Q (Some 738885)])
           two_sum true); done.
Defined.

(** C8, as the specification states it, fails: the day is not a parameter.
    The same call on the same store returns another result when the clock
    shows another day. *)
Lemma update_review_schedule_reads_clock :
  call (update_review_schedule two_sum true) (on_day jan_1_2024) fresh_db ≠
  call (update_review_schedule two_sum true) (on_day 738887) fresh_db.
Proof. by vm_compute. Qed.

(** C9: when a call into the store (connect, a statement, commit) fails
    during [update_review_schedule], [get_due_reviews], [get_review_stats] or
    [get_success_rate], the function raises that very exception (the first
    failure: nothing is retried or swallowed) and the store holds what it
    held before the call. *)
Theorem store_error_propagates ε db n e :
  faults ε n = Some e →
  (∀ m, (m < n)%nat → faults ε m = None) →
  (∀ problem_id success,
     (n < store_calls (update_review_schedule problem_id success)
                      (quiet ε) db)%nat →
     call (update_review_schedule problem_id success) ε db = (Raised e, db)) ∧
  ((n < store_calls get_due_reviews (quiet ε) db)%nat →
   call get_due_reviews ε db = (Raised e, db)) ∧
  (∀ fuel,
     (n < store_calls (get_review_stats fuel) (quiet ε) db)%nat →
     call (get_review_stats fuel) ε db = (Raised e, db)) ∧
  (∀ problem_id,
     (n < store_calls (get_success_rate problem_id) (quiet ε) db)%nat →
     call (get_success_rate problem_id) ε db = (Raised e, db)).
Proof.
  intros Hn Hlt. assert (first_fault ε n e) as Hf by done.
  repeat split.
  - intros problem_id success. by apply call_today_get_connection_first_fault.
  - by apply call_today_get_connection_first_fault.
  - intros fuel. by apply call_today_get_connection_first_fault.
  - intros problem_id. by apply call_get_connection_first_fault.
Qed.

Lemma store_error_propagates_witness :
  call (update_review_schedule two_sum true)
       (failing_at 4 (DatabaseError 5)) fresh_db =
    (Raised (DatabaseError 5), fresh_db) ∧
  call (update_review_schedule two_sum true)
       (failing_at 5 (DatabaseError 5)) fresh_db =
    (Raised (DatabaseError 5), fresh_db).
Proof.
  split.
  - apply (store_error_propagates (failing_at 4 (DatabaseError 5)) fresh_db 4).
    + reflexivity.
    + intros m Hm. cbn. rewrite decide_False; [done|lia].
    + vm_compute. lia.
  - apply (store_error_propagates (failing_at 5 (DatabaseError 5)) fresh_db 5).
    + reflexivity.
    + intros m Hm. cbn. rewrite decide_False; [done|lia].
    + vm_compute. lia.
Defined.

(** C10: after a call of [update_review_schedule] that returns, on a store
    that satisfies its schema and whose prior record of the problem (if any)
    has a positive interval, the stored [next_review_date] is at least the
    day after the day the clock showed, and [get_due_reviews] on that same
    day does not list the problem, whatever the outcome recorded. *)
Theorem just_reviewed_not_due ε db problem_id success r db' :
  schema_ok db →
  (∀ prior, select_schedule problem_id db = Some prior →
            1 ≤ ReviewSchedule.interval_days prior) →
  call (update_review_schedule problem_id success) ε db = (Ok r, db') →
  let today := clock ε 0%nat in
  (∃ row, select_schedule problem_id db' = Some row ∧
          ReviewSchedule.next_review_date row = next_review_date r ∧
          today + 1 ≤ ReviewSchedule.next_review_date row) ∧
  ∃ due, call get_due_reviews (on_day today) db' = (Ok due, db') ∧
         problem_id ∉ map Problem.id due.
Proof.
  intros Hschema Hprior Hcall today.
  pose proof (update_review_schedule_cases ε problem_id success db) as Hcases.
  rewrite Hcall in Hcases. cbn in Hcases. destruct Hcases as (_ & Hup & ->).
  pose proof (new_interval_pos success _ Hprior) as Hpos.
  pose proof (upsert_schedule_schema_ok _ _ _ _ _ _ Hschema Hup) as Hschema'.
  apply upsert_schedule_inr in Hup as (_ & _ & (ease & Hsel & _) & _).
  split.
  { eexists. split; [exact Hsel|]. cbn. fold today. split; [done|lia]. }
  exists (due_rows today db').*1. split; [apply get_due_reviews_quiet|].
  intros Hin. apply list_elem_of_fmap in Hin as (p & Hid & Hp).
  apply list_elem_of_fmap in Hp as ([p' rs] & -> & Hrow).
  apply due_rows_elem in Hrow as (_ & Hrs & Hkey & Hdue). cbn in *.
  assert (ReviewSchedule.problem_id rs = problem_id) as Hk by congruence.
  pose proof (find_unique problem_id (review_schedule db') rs _
                (review_schedule_pk _ Hschema') Hrs Hk Hsel) as Heq.
  subst rs. cbn in Hdue. fold today in Hdue. lia.
Qed.

Lemma just_reviewed_not_due_witness :
  ∃ due, call get_due_reviews (on_day 738887)
           (call (update_review_schedule two_sum false) (on_day 738887)
              two_due_db).2 =
           (Ok due, (call (update_review_schedule two_sum false) (on_day 738887)
                       two_due_db).2) ∧
         two_sum ∉ map Problem.id due.
Proof.
  refine (proj2 (just_reviewed_not_due (on_day 738887) two_due_db two_sum false
                   {| next_review_date := 738888; interval_days := 1 |}
                   _ two_due_db_schema_ok _ eq_refl)).
  intros prior [= <-]. cbn. lia.
Defined.

(** * The rest of [database.py] *)

(** ** Bodies of statements: facts that hold for every one *)

Ltac script_unfold :=
  repeat (progress (unfold call, store_calls, mbind, mret, io_mbind, io_ret,
                      io_bind, with_connection, try_script, store_call,
                      fetch, write;
                    cbn)).

Section Script.
Context {A : Type}.
Implicit Types (m : script A) (ε : env) (w : world).

Lemma run_script_bind {B} m (f : A → script B) ε w :
  run_script (script_bind m f) ε w =
    match run_script m ε w with
    | (Ok a, w') => run_script (f a) ε w'
    | (Raised e, w') => (Raised e, w')
    | (OutOfFuel, w') => (OutOfFuel, w')
    end.
Proof.
  revert w. induction m as [a|e|B' q k IH]; intros w; cbn; try done.
  destruct (faults ε (calls w)); [done|].
  destruct (q (working w)) as [e|[b db']]; [done|]. apply IH.
Qed.

Lemma run_script_committed m ε w :
  committed (run_script m ε w).2 = committed w.
Proof.
  revert w. induction m as [a|e|B' q k IH]; intros w; cbn; try done.
  destruct (faults ε (calls w)); [done|].
  destruct (q (working w)) as [e|[b db']]; [done|]. by rewrite IH.
Qed.

Lemma run_script_calls_mono m ε w : (calls w ≤ calls (run_script m ε w).2)%nat.
Proof.
  revert w. induction m as [a|e|B' q k IH]; intros w; cbn; try done.
  destruct (faults ε (calls w)); [cbn; lia|].
  destruct (q (working w)) as [e|[b db']]; [cbn; lia|].
  etrans; [|apply IH]. cbn. lia.
Qed.

Lemma run_script_no_spin m ε w : (run_script m ε w).1 ≠ OutOfFuel.
Proof.
  revert w. induction m as [a|e|B' q k IH]; intros w; cbn; try done.
  destruct (faults ε (calls w)); [done|].
  destruct (q (working w)) as [e|[b db']]; [done|]. apply IH.
Qed.

Lemma run_script_first_fault m ε n e w :
  first_fault ε n e → (calls w ≤ n)%nat →
  ((calls (run_script m (quiet ε) w).2 ≤ n)%nat ∧
   run_script m ε w = run_script m (quiet ε) w) ∨
  ((n < calls (run_script m (quiet ε) w).2)%nat ∧
   ∃ w', run_script m ε w = (Raised e, w')).
Proof.
  intros [Hn Hlt]. revert w.
  induction m as [a|e'|B' q k IH]; intros w Hw; cbn; try (left; done).
  destruct (decide (calls w = n)) as [Heq|Hne].
  - right. rewrite Heq, Hn. split; [|by eexists].
    destruct (q (working w)) as [e'|[b db']]; [cbn; lia|].
    eapply Nat.lt_le_trans; [|apply run_script_calls_mono]. cbn. lia.
  - rewrite Hlt by lia.
    destruct (q (working w)) as [e'|[b db']].
    + left. cbn. split; [lia|done].
    + apply IH. cbn. lia.
Qed.

(** Leaving the [with] block: the writes of the body are committed, or an
    exception leaves and nothing is. *)
Lemma with_connection_atomic (body : script A) ε w :
  match with_connection body ε w with
  | (Ok _, w') => ∃ w0, committed w' = working (run_script body ε w0).2 ∧
                        working w0 = committed w
  | (Raised _, w') => committed w' = committed w
  | (OutOfFuel, _) => False
  end.
Proof.
  script_unfold.
  repeat (match goal with
          | |- context [faults ε ?c] => destruct (faults ε c); [done|]; cbn
          end).
  match goal with |- context [run_script body ε ?w0] =>
    pose proof (run_script_committed body ε w0) as Hc;
    pose proof (run_script_no_spin body ε w0) as Hs; set (w1 := w0) in *;
    destruct (run_script body ε w1) as [[a|e|] w'] eqn:Hrun end;
    cbn in *; try done.
  destruct (faults ε (calls w')); cbn; [done|].
  exists w1. by rewrite Hrun.
Qed.

Lemma with_connection_first_fault (body : script A) ε n e w :
  first_fault ε n e → (calls w ≤ n)%nat →
  (n < calls (with_connection body (quiet ε) w).2)%nat →
  ∃ w', with_connection body ε w = (Raised e, w') ∧
        committed w' = committed w.
Proof.
  intros Hf Hw Hn.
  pose proof (with_connection_atomic body ε w) as Hat.
  cut (∃ w', with_connection body ε w = (Raised e, w')).
  { intros [w' Hw']. exists w'. by rewrite Hw' in Hat. }
  clear Hat. destruct Hf as [Hfn Hlt]. revert Hn. script_unfold.
  destruct (decide (calls w = n)) as [<-|?]; [rewrite Hfn; by eexists|].
  rewrite Hlt by lia; cbn.
  destruct (decide (S (calls w) = n)) as [<-|?]; [rewrite Hfn; by eexists|].
  rewrite Hlt by lia; cbn.
  destruct (decide (S (S (calls w)) = n)) as [<-|?]; [rewrite Hfn; by eexists|].
  rewrite Hlt by lia; cbn.
  match goal with |- context [run_script body (quiet ε) ?w0] =>
    destruct (run_script_first_fault body ε n e w0) as [[Hle Heq]|[_ [w' Heq]]];
      [done|cbn; lia| |] end.
  - rewrite Heq. destruct (run_script body (quiet ε) _) as [[a|e'|] w'];
      cbn in *; try (intros; lia).
    intros Hn. destruct (decide (calls w' = n)) as [<-|?].
    + rewrite Hfn. by eexists.
    + exfalso. lia.
  - intros _. rewrite Heq. by eexists.
Qed.

(** The same, for a call from a process. *)
Lemma call_with_connection_first_fault (body : script A) ε db n e :
  first_fault ε n e →
  (n < store_calls (with_connection body) (quiet ε) db)%nat →
  call (with_connection body) ε db = (Raised e, db).
Proof.
  intros Hf Hn. unfold call, store_calls in *.
  destruct (with_connection_first_fault body ε n e (boot db) Hf)
    as (w' & -> & Hc); [cbn; lia|done|]. by rewrite Hc.
Qed.

(** A body that only reads returns what it returns on the store as it is,
    and leaves the store as it is. *)
Lemma call_fetch {B} (f : database → B) (g : B → A) ε db :
  call (with_connection (script_bind (fetch f) (λ b, Finish (g b))))
       (quiet ε) db = (Ok (g (f db)), db).
Proof. done. Qed.

End Script.

(** ** Reading the schedule back *)

Lemma get_next_review_date_quiet ε problem_id db :
  call (get_next_review_date problem_id) (quiet ε) db =
    (Ok (ReviewSchedule.next_review_date <$> select_schedule problem_id db), db).
Proof. done. Qed.

(** The dict of the comprehension holds, for each key, the last row with
    that key. *)
Lemma review_info_dict_lookup_from (d : gmap string ReviewInfo.t) rows k :
  foldl (λ d row, <[ReviewSchedule.problem_id row := review_info_of row]> d)
        d rows !! k =
    match last (filter (λ r, ReviewSchedule.problem_id r = k) rows) with
    | Some r => Some (review_info_of r)
    | None => d !! k
    end.
Proof.
  revert d. induction rows as [|r rows IH] using rev_ind; intros d; [done|].
  rewrite foldl_snoc, filter_app, filter_cons, filter_nil.
  destruct (decide (ReviewSchedule.problem_id r = k)) as [<-|Hne].
  - by rewrite last_snoc, lookup_insert_eq.
  - by rewrite app_nil_r, lookup_insert_ne, IH.
Qed.

Lemma filter_key_unique (rs : list ReviewSchedule.t) k :
  NoDup (ReviewSchedule.problem_id <$> rs) →
  last (filter (λ r, ReviewSchedule.problem_id r = k) rs) =
  head (filter (λ r, ReviewSchedule.problem_id r = k) rs).
Proof.
  intros Hnd.
  destruct (filter _ rs) as [|r1 [|r2 l]] eqn:Hf; [done|done|].
  exfalso.
  assert (NoDup (ReviewSchedule.problem_id <$>
                   filter (λ r, ReviewSchedule.problem_id r = k) rs)) as Hnd'.
  { eapply sublist_NoDup; [exact Hnd|]. apply fmap_sublist, sublist_filter. }
  assert (r1 ∈ filter (λ r, ReviewSchedule.problem_id r = k) rs) as H1
    by (rewrite Hf; left).
  assert (r2 ∈ filter (λ r, ReviewSchedule.problem_id r = k) rs) as H2
    by (rewrite Hf; right; left).
  apply list_elem_of_filter in H1 as [H1 _], H2 as [H2 _].
  rewrite Hf, !fmap_cons, H1, H2 in Hnd'.
  apply NoDup_cons in Hnd' as [Hnot _]. apply Hnot. left.
Qed.

Lemma review_info_dict_lookup (rs : list ReviewSchedule.t)
    (ids : list string) k :
  NoDup (ReviewSchedule.problem_id <$> rs) →
  review_info_dict (filter (λ r, ReviewSchedule.problem_id r ∈ ids) rs) !! k =
    if decide (k ∈ ids)
    then review_info_of <$>
           head (filter (λ r, ReviewSchedule.problem_id r = k) rs)
    else None.
Proof.
  intros Hnd. unfold review_info_dict.
  rewrite review_info_dict_lookup_from, lookup_empty, list_filter_filter.
  destruct (decide (k ∈ ids)) as [Hk|Hk].
  - rewrite (list_filter_iff _ (λ r, ReviewSchedule.problem_id r = k)).
    + rewrite filter_key_unique by done. by destruct (head _).
    + intros r. split; [tauto|]. intros <-. done.
  - rewrite (list_filter_iff _ (λ _, False)).
    + replace (filter (λ _, False) rs) with (@nil ReviewSchedule.t); [done|].
      symmetry. apply elem_of_nil_inv. by intros r [? _]%list_elem_of_filter.
    + intros r. split; [|done]. intros [<- ?]. done.
Qed.

(** ** What every reachable store satisfies *)

(** The upsert keeps the keys of [review_schedule] apart, whatever the rest
    of the store holds. *)
Lemma upsert_schedule_keys problem_id next_review days today db db' :
  NoDup (ReviewSchedule.problem_id <$> review_schedule db) →
  upsert_schedule problem_id next_review days today db = inr db' →
  NoDup (ReviewSchedule.problem_id <$> review_schedule db').
Proof.
  intros Hnd Hup.
  apply upsert_schedule_inr in Hup as (_ & _ & (ease & _ & Hcase) & _).
  destruct (select_schedule problem_id db) eqn:Hold.
  - destruct Hcase as [_ Hkeys].
    change (NoDup (map ReviewSchedule.problem_id (review_schedule db'))).
    by rewrite Hkeys.
  - destruct Hcase as (_ & _ & ->). rewrite fmap_app.
    apply NoDup_app. split; [done|]. split; [|apply NoDup_singleton].
    intros k Hk ->%list_elem_of_singleton.
    by apply (find_None problem_id (review_schedule db)) in Hold.
Qed.

(** Each record is either an old one or the one just written. *)
Lemma update_review_schedule_records ε problem_id success db r :
  r ∈ review_schedule
        (call (update_review_schedule problem_id success) ε db).2 →
  r ∈ review_schedule db ∨
  ∃ ease,
    r = ReviewSchedule.mk problem_id
          (clock ε 0%nat +
           new_interval success (select_schedule problem_id db))
          (new_interval success (select_schedule problem_id db))
          ease (Some (clock ε 0%nat)) ∧
    valid_date (ReviewSchedule.next_review_date r) ∧
    (is_Some (select_schedule problem_id db) ∨
     problem_id ∈ map Problem.id (problems db)).
Proof.
  pose proof (update_review_schedule_cases ε problem_id success db) as Hcases.
  destruct (call (update_review_schedule problem_id success) ε db)
    as [[res|e|] db']; cbn in *; [|subst; by left|done].
  destruct Hcases as (Hvalid & Hup & _).
  apply upsert_schedule_inr in Hup as (_ & _ & (ease & _ & Hcase) & _ & Helem).
  intros Hr. apply Helem in Hr as [Hr|[ease' ->]]; [by left|right].
  exists ease'. split; [done|]. split; [done|].
  destruct (select_schedule problem_id db); [left; eauto|right].
  by destruct Hcase as (_ & ? & _).
Qed.

Lemma update_review_schedule_problems ε problem_id success db :
  problems (call (update_review_schedule problem_id success) ε db).2 =
    problems db.
Proof.
  pose proof (update_review_schedule_cases ε problem_id success db) as Hcases.
  destruct (call (update_review_schedule problem_id success) ε db)
    as [[res|e|] db']; cbn in *; [|by subst|done].
  destruct Hcases as (_ & Hup & _).
  by apply upsert_schedule_inr in Hup as (-> & _).
Qed.

Lemma update_review_schedule_keys ε problem_id success db :
  NoDup (ReviewSchedule.problem_id <$> review_schedule db) →
  NoDup (ReviewSchedule.problem_id <$>
           review_schedule
             (call (update_review_schedule problem_id success) ε db).2).
Proof.
  intros Hnd.
  pose proof (update_review_schedule_cases ε problem_id success db) as Hcases.
  destruct (call (update_review_schedule problem_id success) ε db)
    as [[res|e|] db']; cbn in *; [|by subst|done].
  destruct Hcases as (_ & Hup & _). by eapply upsert_schedule_keys.
Qed.

(** ** The numbers of [get_review_stats] *)

Lemma count_due_rows today db :
  schema_ok db →
  count_due today db = Z.of_nat (length (due_rows today db).*1).
Proof.
  intros Hschema. unfold count_due, due_rows.
  rewrite length_fmap, merge_sort_Permutation.
  pose proof (filter_snd (λ r, ReviewSchedule.next_review_date r ≤ today)
                (join_schedule db)) as Hsnd.
  cbn beta in Hsnd. rewrite join_schedule_snd in Hsnd by done.
  by rewrite <- Hsnd, length_fmap.
Qed.

(** ** Submissions *)

#[global] Instance newest_first_total : Total newest_first.
Proof.
  intros x y. unfold newest_first.
  destruct (decide (Submission.submitted_at x = Submission.submitted_at y))
    as [Heq|Hne].
  - rewrite decide_True by done. lia.
  - rewrite (decide_False (P := _ y = _ x)) by done. apply total, _.
Qed.

#[global] Instance newest_first_trans : Transitive newest_first.
Proof.
  intros x y z. unfold newest_first.
  destruct (decide (Submission.submitted_at x = Submission.submitted_at y))
    as [Hxy|Hxy],
    (decide (Submission.submitted_at y = Submission.submitted_at z))
    as [Hyz|Hyz].
  - rewrite decide_True by congruence. lia.
  - rewrite decide_False by congruence. by rewrite Hxy.
  - rewrite decide_False by congruence. by rewrite <- Hyz.
  - intros H1 H2. rewrite decide_False.
    + by etrans.
    + intros Hxz. apply Hyz. rewrite Hxz in H1.
      by apply (anti_symm String.le).
Qed.

Lemma largest_submission_id_ge db s :
  s ∈ submissions db → Submission.id s ≤ largest_submission_id db.
Proof.
  unfold largest_submission_id.
  induction (submissions db) as [|x l IH]; [by intros ?%elem_of_nil|].
  intros [->|Hs]%elem_of_cons; cbn; [lia|]. specialize (IH Hs). lia.
Qed.

Lemma largest_submission_id_nonneg db : 0 ≤ largest_submission_id db.
Proof.
  unfold largest_submission_id.
  induction (submissions db) as [|x l IH]; cbn; lia.
Qed.

(** A [with] block of one statement that returned has run that statement on
    the store as it was and committed what it left. *)
Lemma call_write_inv {B} (q : database → exn + (B * database)) ε db b db' :
  call (with_connection (write q)) ε db = (Ok b, db') → q db = inr (b, db').
Proof.
  script_unfold.
  repeat (match goal with
          | |- context [faults ε ?c] => destruct (faults ε c); [done|]; cbn
          end).
  destruct (q db) as [e|[b' db'']]; cbn; [done|].
  destruct (faults ε 4); cbn; [done|]. congruence.
Qed.

Lemma call_write_quiet {B} (q : database → exn + (B * database)) ε db :
  call (with_connection (write q)) (quiet ε) db =
    match q db with
    | inr (b, db') => (Ok b, db')
    | inl e => (Raised e, db)
    end.
Proof. script_unfold. by destruct (q db) as [e|[b db']]. Qed.

Lemma get_success_rate_quiet ε problem_id db :
  call (get_success_rate problem_id) (quiet ε) db =
    (Ok (Z.of_nat (length (filter
                             (λ s, Submission.problem_id s = problem_id ∧
                                   Submission.passed s = Some true)
                             (submissions db))),
         Z.of_nat (length (filter
                             (λ s, Submission.problem_id s = problem_id ∧
                                   is_Some (Submission.passed s))
                             (submissions db)))), db).
Proof.
  unfold get_success_rate. io_unfold.
  by rewrite graded_totals_counts, graded_for_passed.
Qed.

Lemma insert_submission_inr now problem_id code language ai_feedback passed
    db id db' :
  insert_submission now problem_id code language ai_feedback passed db =
    inr (id, db') →
  id = largest_submission_id db + 1 ∧
  problem_id ∈ map Problem.id (problems db) ∧
  problems db' = problems db ∧ review_schedule db' = review_schedule db ∧
  submissions db' =
    submissions db ++
    [Submission.mk id problem_id code language ai_feedback passed now].
Proof.
  unfold insert_submission. destruct (decide _); [done|].
  destruct (decide _); [|done]. by intros [= <- <-].
Qed.

Lemma get_submissions_quiet ε problem_id limit db :
  call (get_submissions problem_id limit) (quiet ε) db =
    match select_submissions problem_id limit db with
    | inr (rows, _) => (Ok rows, db)
    | inl e => (Raised e, db)
    end.
Proof.
  unfold get_submissions. rewrite call_write_quiet.
  unfold select_submissions. by destruct (decide _).
Qed.

(** A prefix of a sorted list is sorted. *)
Lemma StronglySorted_take {A} (R : relation A) n (l : list A) :
  StronglySorted R l → StronglySorted R (take n l).
Proof.
  intros Hl. rewrite <- (take_drop n l) in Hl.
  by apply StronglySorted_app_1_l in Hl.
Qed.

(** The first element of a sorted list that holds [x] is [x], when nothing
    else in the list may go before [x]. *)
Lemma StronglySorted_head_is {A} (R : relation A) (l : list A) x :
  StronglySorted R l → x ∈ l →
  (∀ y, y ∈ l → R y x → y = x) → head l = Some x.
Proof.
  intros Hl Hx Hfirst. destruct l as [|h l]; [by apply elem_of_nil in Hx|].
  cbn. f_equal. apply elem_of_cons in Hx as [->|Hx]; [done|].
  apply Hfirst; [left|]. apply StronglySorted_inv in Hl as [_ Hall].
  by eapply Forall_forall in Hall.
Qed.

(** ** Loading problems *)

Lemma add_problems_nil db : add_problems db [] = db.
Proof. destruct db. unfold add_problems. cbn. by rewrite app_nil_r. Qed.

Lemma add_problems_cons db row rows :
  add_problems (add_problems db [row]) rows = add_problems db (row :: rows).
Proof. unfold add_problems. cbn. by rewrite <- app_assoc. Qed.

(** The loop adds the rows [new_problems] says, and counts them. *)
Lemma load_rows_quiet now k file count ε w :
  ∃ w',
    run_script (load_rows now k file count) (quiet ε) w =
      (Ok (count +
           Z.of_nat (length (new_problems now k file
                               (map Problem.id (problems (working w)))))),
       w') ∧
    working w' =
      add_problems (working w)
        (new_problems now k file (map Problem.id (problems (working w)))) ∧
    committed w' = committed w.
Proof.
  revert k count w. induction file as [|p rest IH]; intros k count w.
  { exists w. cbn. by rewrite Z.add_0_r, add_problems_nil. }
  cbn [load_rows new_problems]. unfold write. cbn.
  unfold insert_or_ignore_problem.
  destruct (decide (JsonProblem.id p ∈ map Problem.id (problems (working w))))
    as [Hin|Hnew].
  - destruct (IH (S k) (count + 0) (set_working (working w) (called w)))
      as (w' & Hrun & Hw & Hc).
    exists w'. cbn in *. by rewrite Hrun, Z.add_0_r.
  - destruct (decide (difficulty_ok (JsonProblem.difficulty p))) as [Hok|Hbad].
    + destruct (IH (S k) (count + 1)
                  (set_working (add_problems (working w)
                                  [problem_row (now k) p]) (called w)))
        as (w' & Hrun & Hw & Hc).
      exists w'. cbn in *. rewrite map_app in Hrun, Hw. cbn in Hrun, Hw.
      rewrite Hrun, Hw. split; [|split; [|done]].
      * do 2 f_equal. lia.
      * apply (add_problems_cons (working w)).
    + destruct (IH (S k) (count + 0) (set_working (working w) (called w)))
        as (w' & Hrun & Hw & Hc).
      exists w'. cbn in *. by rewrite Hrun, Z.add_0_r.
Qed.

(** A [with] block on a store that does not fail commits what its body
    leaves. *)
Lemma call_with_connection_quiet {A} (body : script A) ε db a w' :
  run_script body (quiet ε) (connected (called (called (called (boot db))))) =
    (Ok a, w') →
  call (with_connection body) (quiet ε) db = (Ok a, working w').
Proof. intros H. script_unfold. cbn in H. by rewrite H. Qed.

Lemma load_problems_from_json_quiet now file ε db :
  call (load_problems_from_json now file) (quiet ε) db =
    (Ok (Z.of_nat (length (new_problems now 0 file
                             (map Problem.id (problems db))))),
     add_problems db (new_problems now 0 file (map Problem.id (problems db)))).
Proof.
  unfold load_problems_from_json.
  destruct (load_rows_quiet now 0 file 0 ε
              (connected (called (called (called (boot db))))))
    as (w' & Hrun & Hw & Hc).
  rewrite (call_with_connection_quiet _ _ _ _ _ Hrun). by rewrite Hw.
Qed.

Section NewProblems.
Variable now : nat → string.


(** Each new row is an element of the file that passes the CHECK. *)
Lemma new_problems_origin k file ids row :
  row ∈ new_problems now k file ids →
  ∃ p j, file !! j = Some p ∧ row = problem_row (now (k + j)%nat) p ∧
         difficulty_ok (JsonProblem.difficulty p) ∧ JsonProblem.id p ∉ ids.
Proof.
  revert k ids. induction file as [|p rest IH]; intros k ids Hrow.
  { by apply elem_of_nil in Hrow. }
  cbn in Hrow.
  assert (∀ ids', ids ⊆ ids' → row ∈ new_problems now (S k) rest ids' →
    ∃ q j, (p :: rest) !! j = Some q ∧
           row = problem_row (now (k + j)%nat) q ∧
           difficulty_ok (JsonProblem.difficulty q) ∧ JsonProblem.id q ∉ ids)
    as Hrest.
  { intros ids' Hsub Hin. destruct (IH _ _ Hin) as (q & j & Hj & -> & Hok & Hq).
    exists q, (S j). rewrite Nat.add_succ_r. split; [done|]. split; [done|].
    split; [done|]. intros ?. by apply Hq, Hsub. }
  destruct (decide (JsonProblem.id p ∈ ids)) as [Hin|Hnew];
    [by apply (Hrest ids)|].
  destruct (decide (difficulty_ok _)) as [Hok|]; [|by apply (Hrest ids)].
  apply elem_of_cons in Hrow as [->|Hrow].
  - exists p, 0%nat. by rewrite Nat.add_0_r.
  - apply (Hrest (ids ++ [JsonProblem.id p])); [|done].
    intros x Hx. apply elem_of_app. by left.
Qed.

(** Every element that passes the CHECK has its key in the table
    afterwards. *)
Lemma new_problems_cover k file ids p :
  p ∈ file → difficulty_ok (JsonProblem.difficulty p) →
  JsonProblem.id p ∈ ids ++ (Problem.id <$> new_problems now k file ids).
Proof.
  revert k ids. induction file as [|q rest IH]; intros k ids Hp Hok.
  { by apply elem_of_nil in Hp. }
  assert (∀ k ids', JsonProblem.id p ∈ ids' ∨ p ∈ rest →
            JsonProblem.id p ∈
              ids' ++ (Problem.id <$> new_problems now k rest ids')) as Hrest.
  { intros k' ids' [Hin|Hin]; [apply elem_of_app; by left|by apply IH]. }
  cbn. apply elem_of_cons in Hp as [->|Hp].
  - destruct (decide (JsonProblem.id q ∈ ids)) as [Hin|Hnew].
    + apply elem_of_app. by left.
    + rewrite decide_True by done. rewrite fmap_cons. cbn.
      apply elem_of_app. right. left.
  - destruct (decide (JsonProblem.id q ∈ ids)) as [Hin|Hnew];
      [apply Hrest; by right|].
    destruct (decide (difficulty_ok _)); [|apply Hrest; by right].
    rewrite fmap_cons. cbn [problem_row Problem.id].
    rewrite cons_middle, (assoc_L (++)). apply Hrest. by right.
Qed.

(** Nothing is new in a file whose acceptable elements are all in the
    table. *)
Lemma new_problems_none k file ids :
  (∀ p, p ∈ file → difficulty_ok (JsonProblem.difficulty p) →
        JsonProblem.id p ∈ ids) →
  new_problems now k file ids = [].
Proof.
  revert k. induction file as [|p rest IH]; intros k Hall; [done|].
  cbn. destruct (decide (JsonProblem.id p ∈ ids)) as [Hin|Hnew].
  - apply IH. intros q Hq. apply Hall. by right.
  - destruct (decide (difficulty_ok _)) as [Hok|].
    + exfalso. apply Hnew, Hall; [left|done].
    + apply IH. intros q Hq. apply Hall. by right.
Qed.

End NewProblems.


(** ** Looking a problem up *)

Lemma get_problem_quiet ε problem_id db :
  call (get_problem problem_id) (quiet ε) db =
    (Ok (select_problem problem_id db), db).
Proof. done. Qed.

Lemma select_problem_Some problem_id db p :
  select_problem problem_id db = Some p →
  p ∈ problems db ∧ Problem.id p = problem_id.
Proof.
  unfold select_problem. intros H. apply head_Some in H as [l H].
  assert (p ∈ filter (λ p, Problem.id p = problem_id) (problems db)) as Hin
    by (rewrite H; left).
  by apply list_elem_of_filter in Hin as [? ?].
Qed.

Lemma select_problem_None problem_id db :
  select_problem problem_id db = None ↔
  problem_id ∉ map Problem.id (problems db).
Proof.
  unfold select_problem. induction (problems db) as [|p ps IH].
  - split; [intros _ H; by apply elem_of_nil in H|done].
  - rewrite filter_cons, fmap_cons.
    destruct (decide (Problem.id p = problem_id)) as [<-|Hne].
    + split; [done|]. intros H. exfalso. apply H. left.
    + rewrite IH, not_elem_of_cons. split; [by split|by intros [_ ?]].
Qed.

Lemma select_problem_add problem_id db rows :
  select_problem problem_id (add_problems db rows) =
    match select_problem problem_id db with
    | Some p => Some p
    | None => head (filter (λ p, Problem.id p = problem_id) rows)
    end.
Proof.
  unfold select_problem, add_problems. cbn. rewrite filter_app.
  by destruct (filter _ (problems db)).
Qed.

(** Before the first failure of the store, a [with] block runs as on a store
    that does not fail. *)
Lemma with_connection_before_fault {A} (body : script A) ε n e w :
  first_fault ε n e →
  (calls (with_connection body (quiet ε) w).2 ≤ n)%nat →
  with_connection body ε w = with_connection body (quiet ε) w.
Proof.
  intros [Hfn Hlt]. script_unfold.
  set (w0 := connected (called (called (called w)))).
  change (run_script body (quiet ε) _) with (run_script body (quiet ε) w0).
  pose proof (run_script_calls_mono body (quiet ε) w0) as Hmono.
  intros Hn.
  assert (calls (run_script body (quiet ε) w0).2 ≤ n)%nat as Hrun.
  { destruct (run_script body (quiet ε) w0) as [[a|e'|] w']; cbn in *; lia. }
  assert (S (S (S (calls w))) ≤ n)%nat as Hw by (cbn in Hmono; lia).
  rewrite (Hlt (calls w)) by lia. cbn.
  rewrite (Hlt (S (calls w))) by lia. cbn.
  rewrite (Hlt (S (S (calls w)))) by lia. cbn.
  change (run_script body ε _) with (run_script body ε w0).
  destruct (run_script_first_fault body ε n e w0 (conj Hfn Hlt))
    as [[_ Heq]|[Hgt _]]; [cbn; lia| |lia].
  rewrite Heq.
  destruct (run_script body (quiet ε) w0) as [[a|e'|] w']; cbn in *;
    try done.
  by rewrite Hlt by lia.
Qed.

(** On a store that does not fail, what a body returns and leaves depends on
    what the transaction sees, not on the process around it. *)
Lemma run_script_quiet_working {A} (m : script A) ε w1 w2 :
  working w1 = working w2 →
  (run_script m (quiet ε) w1).1 = (run_script m (quiet ε) w2).1 ∧
  working (run_script m (quiet ε) w1).2 =
    working (run_script m (quiet ε) w2).2.
Proof.
  revert w1 w2. induction m as [a|e|B q k IH]; intros w1 w2 Hw; cbn;
    try done.
  rewrite Hw. destruct (q (working w2)) as [e|[b db']]; [done|].
  by apply IH.
Qed.

Lemma with_connection_quiet_world {A} (body : script A) ε w :
  (let (r, w') := with_connection body (quiet ε) w in (r, committed w')) =
  call (with_connection body) (quiet ε) (committed w).
Proof.
  script_unfold.
  lazymatch goal with
  | |- ?lhs = ?rhs =>
      match lhs with context [run_script body (quiet ε) ?wa] =>
        match rhs with context [run_script body (quiet ε) ?wb] =>
          pose proof (run_script_quiet_working body ε wa wb eq_refl)
            as [Hr Hw];
          pose proof (run_script_committed body (quiet ε) wa) as Ha;
          pose proof (run_script_committed body (quiet ε) wb) as Hb;
          destruct (run_script body (quiet ε) wa) as [ra wa'],
                   (run_script body (quiet ε) wb) as [rb wb']
        end
      end
  end.
  cbn in *. subst rb. destruct ra; cbn; congruence.
Qed.

(** ** Counting *)

(** A dict filled row by row from rows with pairwise different keys holds
    exactly the rows. *)
Lemma dict_of_rows {V} (rows : list (string * V)) :
  NoDup rows.*1 →
  foldl (λ d (row : string * V), <[row.1 := row.2]> d) ∅ rows =
    (list_to_map rows : gmap string V).
Proof.
  induction rows as [|[k v] rows IH] using rev_ind; intros Hnd; [done|].
  rewrite fmap_app in Hnd. apply NoDup_app in Hnd as (Hnd & Hk & _).
  rewrite foldl_snoc, IH by done. cbn. symmetry. apply list_to_map_snoc.
  intros Hin. apply (Hk k Hin). left.
Qed.

Lemma sum_of_dict (rows : list (string * Z)) :
  NoDup rows.*1 →
  map_fold (λ _ n total, n + total) 0 (list_to_map rows : gmap string Z) =
    foldr Z.add 0 rows.*2.
Proof.
  induction rows as [|[k v] rows IH]; intros Hnd; [done|].
  rewrite fmap_cons in Hnd. apply NoDup_cons in Hnd as [Hk Hnd].
  rewrite list_to_map_cons, map_fold_insert_L.
  - cbn. by rewrite IH.
  - intros. lia.
  - by apply not_elem_of_list_to_map_1.
Qed.

(** Counting the elements of a list by a key, over keys that are pairwise
    different and among which every key occurs, counts each element once. *)
Lemma sum_of_counts {A} (f : A → string) (l : list A) (keys : list string) :
  NoDup keys → (∀ x, x ∈ l → f x ∈ keys) →
  foldr Z.add 0
    ((λ d, Z.of_nat (length (filter (λ x, f x = d) l))) <$> keys) =
    Z.of_nat (length l).
Proof.
  intros Hnd. induction l as [|x l IH]; intros Hkeys.
  { clear. induction keys as [|d keys IH]; [done|].
    rewrite fmap_cons. cbn [foldr]. rewrite IH. by rewrite filter_nil. }
  assert (∀ ks : list string, NoDup ks →
    foldr Z.add 0
      ((λ d, Z.of_nat (length (filter (λ y, f y = d) (x :: l)))) <$> ks) =
    foldr Z.add 0
      ((λ d, Z.of_nat (length (filter (λ y, f y = d) l))) <$> ks) +
    (if decide (f x ∈ ks) then 1 else 0)) as Hstep.
  { clear. intros ks Hks. induction ks as [|d ks IH].
    { cbn. by rewrite decide_False by apply not_elem_of_nil. }
    apply NoDup_cons in Hks as [Hd Hks]. rewrite !fmap_cons. cbn [foldr].
    rewrite IH by done. rewrite filter_cons.
    destruct (decide (f x = d)) as [->|Hne].
    - rewrite (decide_True (P := d ∈ d :: ks)) by left.
      rewrite (decide_False (P := d ∈ ks)) by done. cbn. lia.
    - destruct (decide (f x ∈ ks)) as [Hin|Hnot].
      + rewrite (decide_True (P := f x ∈ d :: ks)) by (by right). lia.
      + rewrite (decide_False (P := f x ∈ d :: ks)); [lia|].
        intros [?|?]%elem_of_cons; done. }
  rewrite Hstep by done. rewrite IH.
  - rewrite decide_True; [cbn; lia|]. apply Hkeys. left.
  - intros y Hy. apply Hkeys. by right.
Qed.

Lemma get_stats_quiet ε db :
  call get_stats (quiet ε) db =
    (Ok {| Stats.total_problems := Z.of_nat (length (problems db));
           Stats.by_difficulty :=
             foldl (λ d (row : string * Z), <[row.1 := row.2]> d) ∅
                   (difficulty_counts db);
           Stats.total_submissions := Z.of_nat (length (submissions db));
           Stats.problems_attempted := count_attempted db |}, db).
Proof. done. Qed.

Lemma difficulty_counts_keys db :
  (difficulty_counts db).*1 = remove_dups (Problem.difficulty <$> problems db).
Proof.
  unfold difficulty_counts. rewrite <- list_fmap_compose.
  by rewrite list_fmap_id.
Qed.

(** ** Tags *)

#[global] Instance by_count_then_name_total : Total by_count_then_name.
Proof.
  intros x y. unfold by_count_then_name.
  destruct (decide (x.2 = y.2)) as [Heq|Hne].
  - rewrite (decide_True (P := y.2 = x.2)) by done. apply total, _.
  - rewrite (decide_False (P := y.2 = x.2)) by done. lia.
Qed.

#[global] Instance by_count_then_name_trans : Transitive by_count_then_name.
Proof.
  intros x y z. unfold by_count_then_name.
  destruct (decide (x.2 = y.2)) as [Hxy|Hxy],
           (decide (y.2 = z.2)) as [Hyz|Hyz].
  - rewrite decide_True by congruence. intros. by etrans.
  - rewrite decide_False by congruence. lia.
  - rewrite decide_False by congruence. lia.
  - intros H1 H2. rewrite decide_False by lia. lia.
Qed.

(** The counting loop, from any dict: a tag that does not occur keeps its
    entry, one that occurs [c] times has [c] more. *)
Lemma count_tags_from (counts : gmap string Z) (tags : list string) t :
  foldl (λ counts tag, <[tag := default 0 (counts !! tag) + 1]> counts)
        counts tags !! t =
    if decide (filter (λ x, x = t) tags = [])
    then counts !! t
    else Some (default 0 (counts !! t) +
               Z.of_nat (length (filter (λ x, x = t) tags))).
Proof.
  revert counts. induction tags as [|x tags IH]; intros counts; [done|].
  cbn [foldl]. rewrite IH, filter_cons.
  destruct (decide (x = t)) as [->|Hne].
  - rewrite lookup_insert_eq. cbn.
    rewrite (decide_False (P := t :: _ = [])) by done.
    destruct (decide (filter (λ x, x = t) tags = [])) as [->|_]; cbn;
      f_equal; lia.
  - by rewrite lookup_insert_ne.
Qed.

Lemma count_tags_lookup rows t n :
  count_tags rows !! t = Some n ↔
  0 < n ∧ n = Z.of_nat (length (filter (λ x, x = t) (mjoin rows))).
Proof.
  unfold count_tags. rewrite count_tags_from, lookup_empty.
  destruct (decide (filter (λ x, x = t) (mjoin rows) = [])) as [->|Hne].
  - cbn. split; [done|lia].
  - cbn. destruct (filter _ (mjoin rows)) as [|x l]; [done|]. cbn.
    split; [intros [= <-]; lia|intros [_ ->]; f_equal; lia].
Qed.

Lemma get_all_tags_quiet ε db :
  call get_all_tags (quiet ε) db =
    (Ok (merge_sort by_count_then_name
           (map_to_list (count_tags (Problem.tags <$> problems db)))), db).
Proof. done. Qed.

(** ** Text helpers *)

Section TextFacts.
Variable isspace : N → bool.

Lemma lstrip_spaces pre s :
  Forall (λ c, isspace c = true) pre →
  lstrip isspace (pre ++ s) = lstrip isspace s.
Proof. induction 1 as [|c pre Hc _ IH]; [done|]. cbn. by rewrite Hc. Qed.

Lemma lstrip_stripped c s :
  isspace c = false → lstrip isspace (c :: s) = c :: s.
Proof. intros Hc. cbn. by rewrite Hc. Qed.

Lemma lstrip_decompose s :
  ∃ pre, s = pre ++ lstrip isspace s ∧
         Forall (λ c, isspace c = true) pre ∧
         ∀ c, head (lstrip isspace s) = Some c → isspace c = false.
Proof.
  induction s as [|c s (pre & Hs & Hpre & Hhead)].
  - exists []. repeat split; [constructor|done].
  - cbn. destruct (isspace c) eqn:Hc.
    + exists (c :: pre). cbn. rewrite <- Hs.
      repeat split; [by constructor|done].
    + exists []. repeat split; [constructor|].
      intros c' [= <-]. done.
Qed.

Lemma rstrip_spaces s post :
  Forall (λ c, isspace c = true) post →
  rstrip isspace (s ++ post) = rstrip isspace s.
Proof.
  intros Hpost. unfold rstrip. rewrite reverse_app, lstrip_spaces; [done|].
  by apply Forall_reverse.
Qed.

Lemma rstrip_stripped s :
  (∀ c, last s = Some c → isspace c = false) → rstrip isspace s = s.
Proof.
  intros Hlast. unfold rstrip.
  destruct (reverse s) as [|c r] eqn:Hr.
  - apply (f_equal reverse) in Hr. rewrite reverse_involutive in Hr.
    by subst.
  - rewrite lstrip_stripped, <- Hr, reverse_involutive; [done|].
    apply Hlast. rewrite <- (reverse_involutive s), Hr, reverse_cons.
    by rewrite last_snoc.
Qed.

(** [strip] finds the core of a text between whitespace. *)
Lemma strip_unique pre t post :
  Forall (λ c, isspace c = true) pre →
  Forall (λ c, isspace c = true) post →
  stripped isspace t →
  strip isspace (pre ++ t ++ post) = t.
Proof.
  intros Hpre Hpost [Hhead Hlast]. unfold strip.
  rewrite lstrip_spaces by done.
  destruct t as [|c t].
  - cbn [app]. rewrite <- (app_nil_r post), lstrip_spaces by done. done.
  - change ((c :: t) ++ post) with (c :: (t ++ post)).
    rewrite lstrip_stripped by by apply Hhead.
    change (c :: (t ++ post)) with ((c :: t) ++ post).
    rewrite rstrip_spaces by done. by apply rstrip_stripped.
Qed.

Lemma strip_decompose s :
  ∃ pre post, s = pre ++ strip isspace s ++ post ∧
              Forall (λ c, isspace c = true) pre ∧
              Forall (λ c, isspace c = true) post ∧
              stripped isspace (strip isspace s).
Proof.
  destruct (lstrip_decompose s) as (pre & Hs & Hpre & Hhead).
  destruct (lstrip_decompose (reverse (lstrip isspace s)))
    as (post & Hr & Hpost & Hlast).
  exists pre, (reverse post).
  assert (lstrip isspace s = strip isspace s ++ reverse post) as Hu.
  { unfold strip, rstrip. rewrite <- reverse_app, <- Hr.
    by rewrite reverse_involutive. }
  repeat split.
  - by rewrite <- Hu.
  - done.
  - by apply Forall_reverse.
  - intros c Hc. apply Hhead. rewrite Hu.
    by destruct (strip isspace s).
  - intros c Hc. apply Hlast. unfold strip, rstrip in Hc.
    destruct (lstrip isspace (reverse (lstrip isspace s))) as [|x r];
      [done|].
    rewrite reverse_cons, last_snoc in Hc. done.
Qed.

Lemma strip_stripped t : stripped isspace t → strip isspace t = t.
Proof.
  intros Ht. rewrite <- (strip_unique [] t []) at 2 by done.
  by rewrite app_nil_r.
Qed.

Lemma strip_spaces_r s post :
  Forall (λ c, isspace c = true) post →
  strip isspace (s ++ post) = strip isspace s.
Proof.
  intros Hpost.
  destruct (strip_decompose s) as (pre & post' & Hs & Hpre & Hpost' & Ht).
  rewrite Hs at 1. rewrite <- !(assoc_L (++)).
  apply strip_unique; [done| |done]. by apply Forall_app.
Qed.

Lemma strip_spaces_l pre s :
  Forall (λ c, isspace c = true) pre →
  strip isspace (pre ++ s) = strip isspace s.
Proof. intros Hpre. unfold strip. by rewrite lstrip_spaces. Qed.

Lemma strip_subseteq s : strip isspace s ⊆ s.
Proof.
  destruct (strip_decompose s) as (pre & post & Hs & _).
  intros c Hc. rewrite Hs. set_solver.
Qed.
End TextFacts.

Lemma split_not_nil sep s : split sep s ≠ [].
Proof.
  destruct s as [|c s]; [done|]. cbn. destruct (decide _); [done|].
  by destruct (split sep s).
Qed.

Lemma split_no_sep sep s t : t ∈ split sep s → sep ∉ t.
Proof.
  revert t. induction s as [|c s IH]; intros t; cbn.
  - rewrite list_elem_of_singleton. intros Heq. subst. apply not_elem_of_nil.
  - destruct (decide (c = sep)) as [Heq|Hc].
    + rewrite elem_of_cons.
      intros [Ht|Ht]; [subst; apply not_elem_of_nil|by apply IH].
    + destruct (split sep s) as [|t' ts].
      * rewrite list_elem_of_singleton. intros Heq. subst.
        rewrite not_elem_of_cons. split; [done|apply not_elem_of_nil].
      * rewrite elem_of_cons. intros [Ht|Ht]; subst.
        -- rewrite not_elem_of_cons. split; [done|]. apply IH. left.
        -- apply IH. by right.
Qed.

Lemma split_whole sep t : sep ∉ t → split sep t = [t].
Proof.
  induction t as [|c t IH]; [done|]. rewrite not_elem_of_cons.
  intros [Hc Ht]. cbn. rewrite decide_False by done. by rewrite IH.
Qed.

Lemma split_app sep t s :
  sep ∉ t → split sep (t ++ sep :: s) = t :: split sep s.
Proof.
  induction t as [|c t IH].
  - intros _. cbn. by rewrite decide_True.
  - rewrite not_elem_of_cons. intros [Hc Ht]. cbn.
    rewrite decide_False by done. by rewrite IH.
Qed.

Lemma join_cons_head sep c t ts :
  c :: join sep (t :: ts) = join sep ((c :: t) :: ts).
Proof. by destruct ts. Qed.

Lemma split_join t ts :
  Forall (λ t, comma ∉ t) (t :: ts) →
  split comma (join [comma; space] (t :: ts)) = t :: ((space ::.) <$> ts).
Proof.
  revert t. induction ts as [|t' ts IH]; intros t Hts.
  - apply split_whole. by inversion Hts.
  - inversion Hts as [|?? Ht Hts']; subst.
    change (join [comma; space] (t :: t' :: ts))
      with (t ++ comma :: space :: join [comma; space] (t' :: ts)).
    rewrite split_app, join_cons_head, IH; [done| |done].
    inversion Hts' as [|?? Ht' Hts'']; subst. constructor; [|done].
    rewrite not_elem_of_cons. split; [done|done].
Qed.

Lemma after_first_app c t s :
  c ∉ t → after_first c (t ++ c :: s) = Some s.
Proof.
  induction t as [|x t IH].
  - intros _. cbn. by rewrite decide_True.
  - rewrite not_elem_of_cons. intros [Hx Ht]. cbn.
    rewrite decide_False by done. by apply IH.
Qed.

Lemma endswith_app s suffix : endswith suffix (s ++ suffix) = true.
Proof.
  unfold endswith. apply bool_decide_eq_true. rewrite length_app.
  split; [lia|].
  replace (length s + length suffix - length suffix)%nat with (length s)
    by lia.
  by rewrite drop_app_length.
Qed.

Lemma parse_tags_nonempty isspace s :
  s ≠ [] →
  _parse_tags isspace (Some s) =
    Some (filter (λ t, t ≠ []) (strip isspace <$> split comma s)).
Proof. by destruct s. Qed.

Lemma parse_tags_inv isspace tags result :
  _parse_tags isspace tags = Some result →
  ∃ s, tags = Some s ∧ s ≠ [] ∧
       result = filter (λ t, t ≠ []) (strip isspace <$> split comma s).
Proof.
  destruct tags as [[|c s]|]; [done| |done]. intros [= <-]. by exists (c :: s).
Qed.

(** * Further properties of [database.py] *)

(** X1: what [update_review_schedule] returns as next review date is what
    [get_next_review_date] reads back for that problem afterwards, and the
    dates it reads for the other problems are the ones from before the
    update; for a problem without a record it returns None. *)
Theorem next_review_date_round_trip ε ε' db problem_id success r db' :
  call (update_review_schedule problem_id success) ε db = (Ok r, db') →
  call (get_next_review_date problem_id) (quiet ε') db' =
    (Ok (Some (next_review_date r)), db') ∧
  (∀ other, other ≠ problem_id →
     (call (get_next_review_date other) (quiet ε') db').1 =
     (call (get_next_review_date other) (quiet ε') db).1) ∧
  (∀ other, other ∉ ReviewSchedule.problem_id <$> review_schedule db' →
     (call (get_next_review_date other) (quiet ε') db').1 = Ok None).
Proof.
  intros Hcall.
  pose proof (update_review_schedule_cases ε problem_id success db) as Hcases.
  rewrite Hcall in Hcases. cbn in Hcases. destruct Hcases as (_ & Hup & ->).
  apply upsert_schedule_inr in Hup as (_ & _ & (ease & Hsel & _) & Hother & _).
  rewrite !get_next_review_date_quiet. split; [by rewrite Hsel|]. split.
  - intros other Hne. rewrite !get_next_review_date_quiet. cbn.
    by rewrite Hother.
  - intros other Hnot. rewrite get_next_review_date_quiet. cbn.
    apply (find_None other) in Hnot.
    unfold select_schedule. by rewrite Hnot.
Qed.

Lemma next_review_date_round_trip_witness :
  call (get_next_review_date two_sum) (quiet (on_day jan_1_2024))
       (call (update_review_schedule two_sum true) (on_day jan_1_2024)
          fresh_db).2 =
    (Ok (Some 738887),
     (call (update_review_schedule two_sum true) (on_day jan_1_2024)
        fresh_db).2).
Proof.
  refine (proj1 (next_review_date_round_trip (on_day jan_1_2024)
                   (on_day jan_1_2024) fresh_db two_sum true
                   {| next_review_date := 738887; interval_days := 1 |}
                   _ eq_refl)).
Defined.

(** X2: [get_review_info_for_problems] with no identifiers returns the empty
    dict without opening a connection, so even when the store fails at once;
    with identifiers, at most as many as SQLite takes variables, it returns
    a dict whose keys are the listed problems that have a record, each with
    the three fields of that record; with more identifiers it raises and the
    store is unchanged. *)
Theorem review_info_for_problems max_variable_number ids ε db :
  NoDup (ReviewSchedule.problem_id <$> review_schedule db) →
  call (get_review_info_for_problems max_variable_number []) ε db =
    (Ok ∅, db) ∧
  store_calls (get_review_info_for_problems max_variable_number []) ε db =
    0%nat ∧
  (ids ≠ [] → (length ids ≤ max_variable_number)%nat →
   ∃ d, call (get_review_info_for_problems max_variable_number ids)
             (quiet ε) db = (Ok d, db) ∧
        ∀ k, d !! k = if decide (k ∈ ids)
                      then review_info_of <$> select_schedule k db
                      else None) ∧
  (ids ≠ [] → (max_variable_number < length ids)%nat →
   call (get_review_info_for_problems max_variable_number ids) (quiet ε) db =
     (Raised (DatabaseError 1), db)).
Proof.
  intros Hpk. split; [done|]. split; [done|]. split.
  - intros Hne Hlen. destruct ids as [|i ids]; [done|].
    eexists. split.
    + unfold get_review_info_for_problems. script_unfold.
      unfold select_schedule_in. rewrite decide_True by done. cbn. done.
    + intros k. by apply review_info_dict_lookup.
  - intros Hne Hlen. destruct ids as [|i ids]; [done|].
    unfold get_review_info_for_problems. script_unfold.
    unfold select_schedule_in. rewrite decide_False by lia. done.
Qed.

Lemma review_info_for_problems_witness :
  ∃ d, call (get_review_info_for_problems 999 [two_sum; "two-pointers"%string])
            (quiet (on_day jan_1_2024)) two_due_db = (Ok d, two_due_db) ∧
       d !! two_sum =
         Some (ReviewInfo.mk jan_1_2024 1 (Some 738885)) ∧
       d !! valid_parens = None.
Proof.
  destruct (review_info_for_problems 999 [two_sum; "two-pointers"%string]
              (on_day jan_1_2024) two_due_db
              (review_schedule_pk _ two_due_db_schema_ok))
    as (_ & _ & Hsome & _).
  destruct Hsome as (d & Hcall & Hd); [done|cbn; lia|].
  exists d. split; [exact Hcall|]. rewrite !Hd. split; by vm_compute.
Defined.

(** X3: in every store reachable from one without schedule records, each
    record has a [last_reviewed] date and
    [next_review_date = last_reviewed + interval_days], its
    [next_review_date] is a calendar date, its interval is at least one day
    and its problem exists; and no two records are of the same problem. *)
Theorem reachable_records_consistent db :
  reachable db →
  NoDup (ReviewSchedule.problem_id <$> review_schedule db) ∧
  ∀ r, r ∈ review_schedule db →
    (∃ d, ReviewSchedule.last_reviewed r = Some d ∧
          ReviewSchedule.next_review_date r =
            d + ReviewSchedule.interval_days r) ∧
    valid_date (ReviewSchedule.next_review_date r) ∧
    1 ≤ ReviewSchedule.interval_days r ∧
    ReviewSchedule.problem_id r ∈ map Problem.id (problems db).
Proof.
  induction 1 as [ps ss|db ε problem_id success _ [IHk IH]|db ε _ IH
                 |db ε fuel _ IH|db ε problem_id _ IH].
  - split; [constructor|]. intros r Hr. by apply elem_of_nil in Hr.
  - split; [by apply update_review_schedule_keys|].
    intros r Hr. rewrite update_review_schedule_problems.
    apply update_review_schedule_records in Hr
      as [Hr|(ease & -> & Hvalid & Hfk)]; [by apply IH|].
    cbn in *. split; [by eexists|]. split; [done|]. split.
    + apply new_interval_pos. intros prior Hprior.
      apply find_Some in Hprior as [Hin _]. by apply IH.
    + destruct Hfk as [[prior Hprior]|Hfk]; [|done].
      apply find_Some in Hprior as [Hin <-]. by apply IH.
  - by rewrite get_due_reviews_store.
  - by rewrite get_review_stats_store.
  - by rewrite get_success_rate_store.
Qed.

Lemma reachable_records_consistent_witness :
  NoDup (ReviewSchedule.problem_id <$>
           review_schedule
             (call (update_review_schedule two_sum true) (on_day jan_1_2024)
                fresh_db).2).
Proof.
  apply (reachable_records_consistent
           (call (update_review_schedule two_sum true) (on_day jan_1_2024)
              fresh_db).2).
  apply reachable_update, reachable_fresh.
Defined.

(** X4: on a store that satisfies its schema and does not fail,
    [get_review_stats] counts as due today exactly as many records as
    [get_due_reviews] lists problems, counts as reviewed at most as many as
    there are records, and its streak is at most the number of records.  A
    loop budget above the number of records is enough. *)
Theorem review_stats_agree_with_due_reviews db today fuel :
  schema_ok db → valid_date today →
  date_min ≤ today - Z.of_nat (length (review_schedule db)) →
  (length (review_schedule db) < fuel)%nat →
  ∃ stats due,
    call (get_review_stats fuel) (on_day today) db = (Ok stats, db) ∧
    call get_due_reviews (on_day today) db = (Ok due, db) ∧
    due_today stats = Z.of_nat (length due) ∧
    0 ≤ total_reviewed stats ≤ Z.of_nat (length (review_schedule db)) ∧
    0 ≤ current_streak stats ≤ Z.of_nat (length (review_schedule db)).
Proof.
  intros Hschema Htoday Hmin Hfuel.
  destruct (streak_exists db today) as (n & Hn & Hrun & Hstop).
  eexists _, _. split.
  { apply (get_review_stats_quiet n); [lia|done|lia|done|done]. }
  split; [apply get_due_reviews_quiet|]. cbn.
  split; [by apply count_due_rows|]. split; [|lia].
  unfold count_reviewed. split; [lia|].
  apply inj_le, length_filter.
Qed.

Lemma review_stats_agree_with_due_reviews_witness :
  ∃ stats due,
    call (get_review_stats 3) (on_day 738887) two_due_db =
      (Ok stats, two_due_db) ∧
    call get_due_reviews (on_day 738887) two_due_db = (Ok due, two_due_db) ∧
    due_today stats = Z.of_nat (length due).
Proof.
  destruct (review_stats_agree_with_due_reviews two_due_db 738887 3
              two_due_db_schema_ok)
    as (stats & due & H1 & H2 & H3 & _).
  - unfold valid_date, date_min, date_max. lia.
  - unfold date_min. cbn. lia.
  - cbn. lia.
  - by exists stats, due.
Defined.

(** X5: on a store that does not fail, [save_submission] for a problem that
    does not exist raises IntegrityError (the foreign key) and stores
    nothing; for one that exists it appends one submission with the values
    given, and returns its id, which is positive and larger than the id of
    every submission before, so that ids stay pairwise different.  (The
    table is taken not to have used up the 64-bit rowids.) *)
Theorem save_submission_appends ε now problem_id code language ai_feedback
    passed db :
  largest_submission_id db ≠ 2 ^ 63 - 1 →
  (problem_id ∉ map Problem.id (problems db) →
   call (save_submission now problem_id code language ai_feedback passed)
        (quiet ε) db = (Raised IntegrityError, db)) ∧
  (problem_id ∈ map Problem.id (problems db) →
   ∃ id,
     call (save_submission now problem_id code language ai_feedback passed)
          (quiet ε) db =
       (Ok id,
        {| problems := problems db;
           submissions :=
             submissions db ++
             [Submission.mk id problem_id code language ai_feedback passed now];
           review_schedule := review_schedule db |}) ∧
     0 < id ∧
     (∀ s, s ∈ submissions db → Submission.id s < id) ∧
     (NoDup (Submission.id <$> submissions db) →
      NoDup (Submission.id <$>
               submissions db ++
               [Submission.mk id problem_id code language ai_feedback passed
                  now]))).
Proof.
  intros Hfull. unfold save_submission. rewrite call_write_quiet.
  unfold insert_submission. rewrite decide_False by done. split.
  - intros Hnot. by rewrite decide_False.
  - intros Hin. rewrite decide_True by done. eexists. split; [done|].
    pose proof (largest_submission_id_nonneg db).
    assert (∀ s, s ∈ submissions db →
                 Submission.id s < largest_submission_id db + 1) as Hlt.
    { intros s Hs%largest_submission_id_ge. lia. }
    split; [lia|]. split; [done|].
    intros Hnd. rewrite fmap_app. apply NoDup_app.
    split; [done|]. split; [|apply NoDup_singleton].
    intros i (s & -> & Hs)%list_elem_of_fmap Heq%list_elem_of_singleton.
    apply Hlt in Hs. cbn in Heq. lia.
Qed.

Lemma save_submission_appends_witness :
  ∃ id,
    (call (save_submission "2024-01-02 09:30:00" two_sum "def solve(): pass"
             "python" (Some "Good start!"%string) (Some true))
          (quiet (on_day jan_1_2024)) pass_fail_pass_db).1 = Ok id ∧
    ∀ s, s ∈ submissions pass_fail_pass_db → Submission.id s < id.
Proof.
  destruct (save_submission_appends (on_day jan_1_2024) "2024-01-02 09:30:00"
              two_sum "def solve(): pass" "python" (Some "Good start!"%string)
              (Some true) pass_fail_pass_db) as [_ Hsome].
  - by vm_compute.
  - destruct Hsome as (id & Hcall & _ & Hfresh & _); [by_decide|].
    exists id. split; [by rewrite Hcall|done].
Defined.

(** X6: a submission that [save_submission] has saved moves the success rate
    of its problem by one graded submission if it has a verdict, and by one
    passed submission if the verdict is a pass; an ungraded submission moves
    nothing, and the rates of the other problems stay as they are. *)
Theorem success_rate_after_submission ε ε' now problem_id code language
    ai_feedback passed db id db' other :
  call (save_submission now problem_id code language ai_feedback passed) ε db =
    (Ok id, db') →
  ∃ p t,
    call (get_success_rate other) (quiet ε') db = (Ok (p, t), db) ∧
    call (get_success_rate other) (quiet ε') db' =
      (Ok (if decide (other = problem_id)
           then (p + (if decide (passed = Some true) then 1 else 0),
                 t + (if decide (is_Some passed) then 1 else 0))
           else (p, t)), db').
Proof.
  intros Hcall. apply call_write_inv, insert_submission_inr in Hcall
    as (_ & _ & _ & _ & Hsubs).
  eexists _, _. split; [apply get_success_rate_quiet|].
  rewrite get_success_rate_quiet, Hsubs, !filter_app, !length_app.
  rewrite !filter_cons, !filter_nil. cbn.
  destruct (decide (other = problem_id)) as [->|Hne].
  - destruct (decide (passed = Some true)) as [->|Hp].
    + rewrite !decide_True by eauto. cbn. do 3 f_equal; lia.
    + rewrite (decide_False (P := _ ∧ passed = _)) by tauto.
      destruct (decide (is_Some passed)) as [Hs|Hs].
      * rewrite decide_True by done. cbn. do 3 f_equal; lia.
      * rewrite decide_False by tauto. cbn. do 3 f_equal; lia.
  - rewrite !decide_False by (intros [? _]; congruence).
    cbn. do 3 f_equal; lia.
Qed.

Lemma success_rate_after_submission_witness :
  ∃ p t,
    call (get_success_rate two_sum) (quiet (on_day jan_1_2024))
         pass_fail_pass_db = (Ok (p, t), pass_fail_pass_db) ∧
    (call (get_success_rate two_sum) (quiet (on_day jan_1_2024))
       (call (save_submission "2024-01-02 09:30:00" two_sum "code" "python"
                None (Some false)) (on_day jan_1_2024) pass_fail_pass_db).2).1 =
      Ok (p + 0, t + 1).
Proof.
  destruct (success_rate_after_submission (on_day jan_1_2024)
              (on_day jan_1_2024) "2024-01-02 09:30:00" two_sum "code" "python"
              None (Some false) pass_fail_pass_db 5
              (call (save_submission "2024-01-02 09:30:00" two_sum "code"
                       "python" None (Some false)) (on_day jan_1_2024)
                 pass_fail_pass_db).2 two_sum eq_refl)
    as (p & t & H1 & H2).
  exists p, t. split; [exact H1|]. by rewrite H2.
Defined.

(** X7: on a store that does not fail, [get_submissions] with a limit that
    fits 64 bits returns submissions of the problem only, newest first (by
    [submitted_at], then by id), and they are the first of all the
    submissions of the problem in that order: as many as the limit says, all
    of them when there are fewer or the limit is negative, none when the
    limit is 0.  A limit that does not fit 64 bits raises OverflowError.
    The store is unchanged. *)
Theorem submissions_newest_first ε problem_id limit db :
  (- 2 ^ 63 ≤ limit < 2 ^ 63 →
   ∃ rows rest,
     call (get_submissions problem_id limit) (quiet ε) db = (Ok rows, db) ∧
     StronglySorted newest_first (rows ++ rest) ∧
     rows ++ rest ≡ₚ
       filter (λ s, Submission.problem_id s = problem_id) (submissions db) ∧
     (limit < 0 → rest = []) ∧
     (0 ≤ limit →
      length rows = Nat.min (Z.to_nat limit) (length (rows ++ rest)))) ∧
  (¬ (- 2 ^ 63 ≤ limit < 2 ^ 63) →
   call (get_submissions problem_id limit) (quiet ε) db =
     (Raised OverflowError, db)).
Proof.
  rewrite get_submissions_quiet. unfold select_submissions. split.
  - intros Hlimit. rewrite decide_True by done.
    set (sorted := merge_sort newest_first _).
    assert (StronglySorted newest_first sorted) as Hsorted
      by (apply StronglySorted_merge_sort; apply _).
    assert (sorted ≡ₚ filter (λ s, Submission.problem_id s = problem_id)
                             (submissions db)) as Hperm
      by apply merge_sort_Permutation.
    destruct (decide (limit < 0)) as [Hneg|Hpos].
    + exists sorted, []. rewrite app_nil_r.
      split; [done|]. split; [done|]. split; [done|]. split; [done|]. lia.
    + exists (take (Z.to_nat limit) sorted), (drop (Z.to_nat limit) sorted).
      rewrite take_drop.
      split; [done|]. split; [done|]. split; [done|]. split; [lia|].
      intros _. apply length_take.
  - intros Hlimit. by rewrite decide_False.
Qed.

Lemma submissions_newest_first_witness :
  ∃ rows,
    call (get_submissions two_sum 2) (quiet (on_day jan_1_2024))
         pass_fail_pass_db = (Ok rows, pass_fail_pass_db) ∧
    Submission.id <$> rows = [4; 3].
Proof.
  destruct (submissions_newest_first (on_day jan_1_2024) two_sum 2
              pass_fail_pass_db) as [Hin _].
  destruct Hin as (rows & rest & Hcall & _); [lia|].
  exists rows. split; [exact Hcall|].
  rewrite get_submissions_quiet in Hcall. injection Hcall as <-.
  by vm_compute.
Defined.

(** X8: a submission just saved is the first that [get_submissions] returns
    for its problem (with a limit other than 0), provided no submission of
    the problem carries a later [submitted_at] than the time of the
    insert. *)
Theorem saved_submission_comes_first ε ε' now problem_id code language
    ai_feedback passed db id db' limit :
  call (save_submission now problem_id code language ai_feedback passed) ε db =
    (Ok id, db') →
  (∀ s, s ∈ submissions db → Submission.problem_id s = problem_id →
        String.le (Submission.submitted_at s) now) →
  - 2 ^ 63 ≤ limit < 2 ^ 63 → limit ≠ 0 →
  ∃ rows,
    call (get_submissions problem_id limit) (quiet ε') db' = (Ok rows, db') ∧
    head rows =
      Some (Submission.mk id problem_id code language ai_feedback passed now).
Proof.
  intros Hcall Hnow Hlimit Hnz.
  apply call_write_inv, insert_submission_inr in Hcall
    as (-> & _ & _ & _ & Hsubs).
  rewrite get_submissions_quiet. unfold select_submissions.
  rewrite decide_True by done. eexists. split; [done|].
  set (x := Submission.mk _ _ _ _ _ _ _).
  set (sorted := merge_sort newest_first _).
  assert (head sorted = Some x) as Hhead.
  { apply (StronglySorted_head_is newest_first).
    - apply StronglySorted_merge_sort; apply _.
    - unfold sorted. rewrite merge_sort_Permutation, Hsubs.
      apply list_elem_of_filter. split; [done|].
      apply elem_of_app. right. left.
    - intros y Hy Hyx. unfold sorted in Hy.
      rewrite merge_sort_Permutation, Hsubs in Hy.
      apply list_elem_of_filter in Hy as [Hpid Hy].
      apply elem_of_app in Hy as [Hy|Hy]; [|by apply list_elem_of_singleton in Hy].
      exfalso. pose proof (largest_submission_id_ge db y Hy) as Hid.
      specialize (Hnow y Hy Hpid). unfold newest_first in Hyx. cbn in Hyx.
      destruct (decide (Submission.submitted_at y = now)) as [Heq|Hne];
        [lia|].
      apply Hne. by apply (anti_symm String.le). }
  destruct (decide (limit < 0)); [done|].
  destruct sorted as [|h l]; [done|].
  destruct (Z.to_nat limit) as [|m] eqn:Hm; [lia|done].
Qed.

Lemma saved_submission_comes_first_witness :
  ∃ rows,
    call (get_submissions two_sum 20) (quiet (on_day jan_1_2024))
      (call (save_submission "2024-01-02 09:30:00" two_sum "code" "python"
               None None) (on_day jan_1_2024) pass_fail_pass_db).2 =
      (Ok rows,
       (call (save_submission "2024-01-02 09:30:00" two_sum "code" "python"
                None None) (on_day jan_1_2024) pass_fail_pass_db).2) ∧
    Submission.id <$> head rows = Some 5.
Proof.
  destruct (saved_submission_comes_first (on_day jan_1_2024)
              (on_day jan_1_2024) "2024-01-02 09:30:00" two_sum "code" "python"
              None None pass_fail_pass_db 5
              (call (save_submission "2024-01-02 09:30:00" two_sum "code"
                       "python" None None) (on_day jan_1_2024)
                 pass_fail_pass_db).2 20 eq_refl)
    as (rows & Hcall & Hhead).
  - intros s Hs _. unfold pass_fail_pass_db in Hs. cbn in Hs.
    repeat (apply elem_of_cons in Hs as [->|Hs]; [by vm_compute|]).
    by apply elem_of_nil in Hs.
  - lia.
  - lia.
  - exists rows. split; [exact Hcall|]. by rewrite Hhead.
Defined.



(** X10: loading the same file a second time adds nothing: it returns 0 and
    leaves the store as the first load left it, whatever the store held
    before the first load and whatever the times of the inserts. *)
Theorem load_twice_adds_nothing now now' file ε ε' db :
  call (load_problems_from_json now' file) (quiet ε')
       (call (load_problems_from_json now file) (quiet ε) db).2 =
    (Ok 0, (call (load_problems_from_json now file) (quiet ε) db).2).
Proof.
  rewrite (load_problems_from_json_quiet now). cbn [snd].
  rewrite load_problems_from_json_quiet.
  rewrite new_problems_none.
  - by rewrite add_problems_nil.
  - intros p Hp Hok. cbn. rewrite map_app. by apply new_problems_cover.
Qed.

(** X11: after a load, [get_problem] finds every element of the file with an
    accepted difficulty under its key; for a key that was in the table
    before the load it returns the row it returned before (a load never
    overwrites a problem); and it returns None for a key that is neither in
    the table nor in the file. *)
Theorem loaded_problems_are_found now file ε ε' db :
  (∀ p, p ∈ file → difficulty_ok (JsonProblem.difficulty p) →
     ∃ row,
       (call (get_problem (JsonProblem.id p)) (quiet ε')
          (call (load_problems_from_json now file) (quiet ε) db).2).1 =
         Ok (Some row) ∧
       Problem.id row = JsonProblem.id p) ∧
  (∀ problem_id, problem_id ∈ map Problem.id (problems db) →
     (call (get_problem problem_id) (quiet ε')
        (call (load_problems_from_json now file) (quiet ε) db).2).1 =
     (call (get_problem problem_id) (quiet ε') db).1) ∧
  (∀ problem_id, problem_id ∉ map Problem.id (problems db) →
     (∀ p, p ∈ file → JsonProblem.id p ≠ problem_id) →
     (call (get_problem problem_id) (quiet ε')
        (call (load_problems_from_json now file) (quiet ε) db).2).1 =
       Ok None).
Proof.
  rewrite load_problems_from_json_quiet. cbn [snd].
  set (added := new_problems now 0 file (map Problem.id (problems db))).
  split; [|split].
  - intros p Hp Hok. rewrite get_problem_quiet. cbn [fst].
    destruct (select_problem (JsonProblem.id p) (add_problems db added))
      as [row|] eqn:Hsel.
    + exists row. split; [done|]. by apply select_problem_Some in Hsel as [_ ?].
    + exfalso. apply select_problem_None in Hsel. apply Hsel.
      cbn. rewrite map_app. by apply new_problems_cover.
  - intros problem_id Hin. rewrite !get_problem_quiet. cbn [fst].
    rewrite select_problem_add.
    destruct (select_problem problem_id db) eqn:Hsel; [done|].
    by apply select_problem_None in Hsel.
  - intros problem_id Hnot Hfile. rewrite get_problem_quiet. cbn [fst].
    f_equal. apply select_problem_None. cbn. rewrite map_app.
    intros [?|Hin]%elem_of_app; [done|].
    apply list_elem_of_fmap in Hin as (row & -> & Hrow).
    apply new_problems_origin in Hrow as (p & j & Hj & -> & _).
    apply (Hfile p); [|done]. by eapply list_elem_of_lookup_2.
Qed.

Lemma loaded_problems_are_found_witness :
  (∃ row,
     (call (get_problem "three-sum") (quiet (on_day jan_1_2024))
        (call (load_problems_from_json noon example_file)
              (quiet (on_day jan_1_2024)) fresh_db).2).1 = Ok (Some row) ∧
     Problem.id row = "three-sum"%string) ∧
  (call (get_problem "median") (quiet (on_day jan_1_2024))
     (call (load_problems_from_json noon example_file)
           (quiet (on_day jan_1_2024)) fresh_db).2).1 = Ok None.
Proof.
  destruct (loaded_problems_are_found noon example_file (on_day jan_1_2024)
              (on_day jan_1_2024) fresh_db) as (Hfound & _ & Hnone).
  split.
  - apply (Hfound (json_problem "three-sum" "3Sum" "medium"
                     ["arrays"; "two-pointers"; "sorting"]%string)).
    + do 2 right. left.
    + by_decide.
  - apply Hnone; [by_decide|].
    intros p Hp Hid. unfold example_file in Hp.
    repeat (apply elem_of_cons in Hp as [Hp|Hp]; [by subst|]).
    by apply elem_of_nil in Hp.
Defined.

(** X12: [load_all_problems] is one load after the other, each in a
    transaction of its own: on a store that does not fail it returns the sum
    of the two counts (the count of the first file when there is no second);
    when the store fails during the load of the second file, the exception
    leaves and the problems of the first file stay loaded. *)
Theorem load_all_problems_is_two_loads now now' file more ε db n e :
  faults ε n = Some e →
  (∀ m, (m < n)%nat → faults ε m = None) →
  (store_calls (load_problems_from_json now file) (quiet ε) db ≤ n)%nat →
  (n < store_calls (load_all_problems now now' file (Some more))
                   (quiet ε) db)%nat →
  call (load_all_problems now now' file (Some more)) ε db =
    (Raised e, (call (load_problems_from_json now file) (quiet ε) db).2) ∧
  call (load_all_problems now now' file None) (quiet ε) db =
    call (load_problems_from_json now file) (quiet ε) db ∧
  ∃ count count' db1 db2,
    call (load_problems_from_json now file) (quiet ε) db = (Ok count, db1) ∧
    call (load_problems_from_json now' more) (quiet ε) db1 = (Ok count', db2) ∧
    call (load_all_problems now now' file (Some more)) (quiet ε) db =
      (Ok (count + count'), db2).
Proof.
  intros Hfn Hlt Hfirst Hsecond. assert (first_fault ε n e) as Hf by done.
  pose proof (load_problems_from_json_quiet now file ε db) as Hload.
  unfold load_all_problems, load_problems_from_json, call, store_calls,
    mbind, io_mbind, io_bind in *.
  rewrite (with_connection_before_fault _ ε n e (boot db) Hf) by done.
  destruct (with_connection (load_rows now 0 file 0) (quiet ε) (boot db))
    as [[count|e1|] w1] eqn:H1; cbn in *; [|done|done].
  injection Hload as -> Hdb1. split; [|split].
  - destruct (with_connection_first_fault (load_rows now' 0 more 0) ε n e w1 Hf)
      as (w' & -> & Hc); [done| |cbn; by rewrite Hc].
    destruct (with_connection (load_rows now' 0 more 0) (quiet ε) w1)
      as [[c|e2|] w2]; done.
  - by rewrite Hdb1.
  - pose proof (eq_trans
                    (with_connection_quiet_world (load_rows now' 0 more 0) ε w1)
                    (load_problems_from_json_quiet now' more ε (committed w1)))
      as Hworld.
    destruct (with_connection (load_rows now' 0 more 0) (quiet ε) w1)
      as [[c|e2|] w2]; [|done|done].
    injection Hworld as -> Hdb2.
    eexists _, _, _, _. split; [by rewrite Hdb1|].
    split; [rewrite <- Hdb1; apply load_problems_from_json_quiet|].
    cbn. by rewrite Hdb2, Hdb1.
Qed.


Lemma load_all_problems_is_two_loads_witness :
  call (load_all_problems noon noon example_file (Some additional_file))
       (failing_at 10 (DatabaseError 5)) empty_db =
    (Raised (DatabaseError 5),
     (call (load_problems_from_json noon example_file)
           (quiet (failing_at 10 (DatabaseError 5))) empty_db).2).
Proof.
  apply (load_all_problems_is_two_loads noon noon example_file additional_file
           (failing_at 10 (DatabaseError 5)) empty_db 10).
  - reflexivity.
  - intros m Hm. cbn. rewrite decide_False; [done|lia].
  - vm_compute. lia.
  - vm_compute. lia.
Defined.

(** X13: the check the commands make before they schedule a review is the
    right one.  When [get_problem] finds the problem, marking it (solved or
    struggled) on a store that does not fail returns, as long as the next
    review date is a calendar date; when [get_problem] returns None and the
    problem has no record, marking it raises IntegrityError and stores
    nothing. *)
Theorem found_problem_can_be_marked ε problem_id success today db :
  valid_date today →
  valid_date (today +
              new_interval success (select_schedule problem_id db)) →
  (∀ p, (call (get_problem problem_id) (quiet ε) db).1 = Ok (Some p) →
     Problem.id p = problem_id ∧ p ∈ problems db ∧
     ∃ r db',
       call (update_review_schedule problem_id success) (on_day today) db =
         (Ok r, db')) ∧
  ((call (get_problem problem_id) (quiet ε) db).1 = Ok None →
   select_schedule problem_id db = None →
   call (update_review_schedule problem_id success) (on_day today) db =
     (Raised IntegrityError, db)).
Proof.
  intros Htoday Hnext. rewrite get_problem_quiet. cbn [fst]. split.
  - intros p [= Hsel]. apply select_problem_Some in Hsel as [Hin Hid].
    split; [done|]. split; [done|].
    destruct (update_review_schedule_returns today problem_id success db)
      as (db' & _ & Hcall); [|done|done|by eexists _, _].
    rewrite <- Hid. apply list_elem_of_fmap. by exists p.
  - intros [= Hsel] Hnone. apply select_problem_None in Hsel.
    rewrite update_review_schedule_quiet. cbv zeta.
    destruct (date_add_days today _ Htoday Hnext) as [-> ->].
    unfold upsert_schedule. rewrite Hnone. by rewrite decide_False.
Qed.

Lemma found_problem_can_be_marked_witness :
  call (update_review_schedule "no-such-problem" true) (on_day jan_1_2024)
       fresh_db = (Raised IntegrityError, fresh_db).
Proof.
  refine (proj2 (found_problem_can_be_marked (on_day jan_1_2024)
                   "no-such-problem" true jan_1_2024 fresh_db _ _) _ _).
  - by vm_compute.
  - by vm_compute.
  - reflexivity.
  - reflexivity.
Defined.

(** X14: on a store that does not fail, the numbers of [get_stats] fit
    together: [by_difficulty] has a key for each difficulty that occurs and
    for no other, with the number of problems of that difficulty, and its
    values add up to [total_problems]; [problems_attempted] is at most
    [total_submissions], and at most [total_problems] when every submission
    is of a problem in the table (the foreign key).  The store is
    unchanged. *)
Theorem stats_add_up ε db :
  ∃ stats,
    call get_stats (quiet ε) db = (Ok stats, db) ∧
    Stats.total_problems stats = Z.of_nat (length (problems db)) ∧
    (∀ d n, Stats.by_difficulty stats !! d = Some n ↔
            0 < n ∧
            n = Z.of_nat (length (filter (λ p, Problem.difficulty p = d)
                                         (problems db)))) ∧
    map_fold (λ _ n total, n + total) 0 (Stats.by_difficulty stats) =
      Stats.total_problems stats ∧
    0 ≤ Stats.problems_attempted stats ≤ Stats.total_submissions stats ∧
    ((∀ s, s ∈ submissions db →
           Submission.problem_id s ∈ map Problem.id (problems db)) →
     Stats.problems_attempted stats ≤ Stats.total_problems stats).
Proof.
  eexists. split; [apply get_stats_quiet|]. cbn.
  assert (NoDup (difficulty_counts db).*1) as Hnd.
  { rewrite difficulty_counts_keys. apply NoDup_remove_dups. }
  rewrite dict_of_rows by done. split; [done|]. split; [|split; [|split]].
  - intros d n. rewrite <- elem_of_list_to_map by done.
    unfold difficulty_counts. rewrite list_elem_of_fmap. split.
    + intros (d' & [= <- ->] & Hd). split; [|done].
      apply elem_of_remove_dups, list_elem_of_fmap in Hd as (p & -> & Hp).
      assert (p ∈ filter (λ q, Problem.difficulty q = Problem.difficulty p)
                         (problems db)) as Hin
        by (by apply list_elem_of_filter).
      destruct (filter _ (problems db)); [by apply elem_of_nil in Hin|].
      cbn. lia.
    + intros [Hpos ->]. exists d. split; [done|].
      apply elem_of_remove_dups.
      destruct (filter (λ p, Problem.difficulty p = d) (problems db))
        as [|p l] eqn:Hf; [cbn in Hpos; lia|].
      assert (p ∈ filter (λ p, Problem.difficulty p = d) (problems db))
        as [<- Hp]%list_elem_of_filter by (rewrite Hf; left).
      apply list_elem_of_fmap. by exists p.
  - rewrite sum_of_dict by done. unfold difficulty_counts.
    rewrite <- list_fmap_compose.
    apply (sum_of_counts Problem.difficulty); [apply NoDup_remove_dups|].
    intros p Hp. apply elem_of_remove_dups, list_elem_of_fmap. by exists p.
  - unfold count_attempted. split; [lia|]. apply inj_le.
    rewrite <- (length_fmap Submission.problem_id (submissions db)).
    apply submseteq_length, NoDup_submseteq; [apply NoDup_remove_dups|].
    intros k Hk. by rewrite elem_of_remove_dups in Hk.
  - intros Hfk. unfold count_attempted. apply inj_le.
    rewrite <- (length_fmap Problem.id (problems db)).
    apply submseteq_length, NoDup_submseteq; [apply NoDup_remove_dups|].
    intros k Hk. rewrite elem_of_remove_dups in Hk.
    apply list_elem_of_fmap in Hk as (s & -> & Hs). by apply Hfk.
Qed.

Lemma stats_add_up_witness :
  ∃ stats,
    call get_stats (quiet (on_day jan_1_2024)) pass_fail_pass_db =
      (Ok stats, pass_fail_pass_db) ∧
    Stats.problems_attempted stats ≤ Stats.total_problems stats.
Proof.
  destruct (stats_add_up (on_day jan_1_2024) pass_fail_pass_db)
    as (stats & Hcall & _ & _ & _ & _ & Hattempted).
  exists stats. split; [exact Hcall|]. apply Hattempted.
  intros s Hs. unfold pass_fail_pass_db in Hs. cbn [submissions] in Hs.
  repeat (apply elem_of_cons in Hs as [Hs|Hs]; [subst; by_decide|]).
  by apply elem_of_nil in Hs.
Defined.

(** X15: on a store that does not fail, [get_all_tags] lists each tag that
    occurs in some problem once, with the number of its occurrences over all
    problems, and no other tag; the list is in the order of falling counts,
    and of rising names among equal counts.  Without problems the list is
    empty.  The store is unchanged. *)
Theorem tags_by_count ε db :
  ∃ result,
    call get_all_tags (quiet ε) db = (Ok result, db) ∧
    StronglySorted by_count_then_name result ∧
    NoDup result.*1 ∧
    (∀ t n, (t, n) ∈ result ↔
            0 < n ∧
            n = Z.of_nat (length (filter (λ x, x = t)
                                    (mjoin (Problem.tags <$> problems db))))) ∧
    (problems db = [] → result = []).
Proof.
  eexists. split; [apply get_all_tags_quiet|].
  set (counts := count_tags (Problem.tags <$> problems db)).
  split; [apply StronglySorted_merge_sort; apply _|].
  split; [|split].
  - rewrite merge_sort_Permutation. apply NoDup_fst_map_to_list.
  - intros t n. rewrite merge_sort_Permutation, elem_of_map_to_list.
    apply count_tags_lookup.
  - intros Hnil. unfold counts. rewrite Hnil. done.
Qed.

Lemma tags_by_count_witness :
  ∃ result,
    call get_all_tags (quiet (on_day jan_1_2024)) empty_db =
      (Ok result, empty_db) ∧
    result = [].
Proof.
  destruct (tags_by_count (on_day jan_1_2024) empty_db)
    as (result & Hcall & _ & _ & _ & Hempty).
  exists result. split; [exact Hcall|]. by apply Hempty.
Defined.

(** X16: when a call into the store (connect, a statement, commit) is the
    first to fail during [get_next_review_date],
    [get_review_info_for_problems] (with identifiers), [get_problem],
    [save_submission], [get_submissions], [get_stats],
    [load_problems_from_json] or [get_all_tags], the function raises the
    exception of the store and the store holds what it held before the
    call; in particular a load that fails at its last insert, or at the
    commit, has loaded nothing. *)
Theorem store_error_leaves_store ε db n e :
  faults ε n = Some e →
  (∀ m, (m < n)%nat → faults ε m = None) →
  (∀ problem_id,
     (n < store_calls (get_next_review_date problem_id) (quiet ε) db)%nat →
     call (get_next_review_date problem_id) ε db = (Raised e, db)) ∧
  (∀ max_variable_number ids, ids ≠ [] →
     (n < store_calls (get_review_info_for_problems max_variable_number ids)
                      (quiet ε) db)%nat →
     call (get_review_info_for_problems max_variable_number ids) ε db =
       (Raised e, db)) ∧
  (∀ problem_id,
     (n < store_calls (get_problem problem_id) (quiet ε) db)%nat →
     call (get_problem problem_id) ε db = (Raised e, db)) ∧
  (∀ now problem_id code language ai_feedback passed,
     (n < store_calls
            (save_submission now problem_id code language ai_feedback passed)
            (quiet ε) db)%nat →
     call (save_submission now problem_id code language ai_feedback passed)
          ε db = (Raised e, db)) ∧
  (∀ problem_id limit,
     (n < store_calls (get_submissions problem_id limit) (quiet ε) db)%nat →
     call (get_submissions problem_id limit) ε db = (Raised e, db)) ∧
  ((n < store_calls get_stats (quiet ε) db)%nat →
   call get_stats ε db = (Raised e, db)) ∧
  (∀ now file,
     (n < store_calls (load_problems_from_json now file) (quiet ε) db)%nat →
     call (load_problems_from_json now file) ε db = (Raised e, db)) ∧
  ((n < store_calls get_all_tags (quiet ε) db)%nat →
   call get_all_tags ε db = (Raised e, db)).
Proof.
  intros Hn Hlt. assert (first_fault ε n e) as Hf by done.
  repeat split.
  - intros problem_id. by apply call_with_connection_first_fault.
  - intros max_variable_number [|i ids] Hne; [done|].
    by apply call_with_connection_first_fault.
  - intros problem_id. by apply call_with_connection_first_fault.
  - intros *. by apply call_with_connection_first_fault.
  - intros *. by apply call_with_connection_first_fault.
  - by apply call_with_connection_first_fault.
  - intros *. by apply call_with_connection_first_fault.
  - unfold get_all_tags, call, store_calls, mbind, io_mbind, io_bind.
    intros Hcalls.
    destruct (with_connection_first_fault
                (fetch (λ db, Problem.tags <$> problems db)) ε n e (boot db) Hf)
      as (w' & -> & Hc); [cbn; lia| |by rewrite Hc].
    destruct (with_connection _ (quiet ε) (boot db)) as [[rows|e'|] w'];
      done.
Qed.

Lemma store_error_leaves_store_witness :
  call (load_problems_from_json noon example_file)
       (failing_at 8 (DatabaseError 5)) empty_db =
    (Raised (DatabaseError 5), empty_db) ∧
  call (save_submission "2024-01-02 09:30:00" two_sum "code" "python" None None)
       (failing_at 4 (DatabaseError 5)) fresh_db =
    (Raised (DatabaseError 5), fresh_db).
Proof.
  split.
  - apply (store_error_leaves_store (failing_at 8 (DatabaseError 5)) empty_db 8).
    + reflexivity.
    + intros m Hm. cbn. rewrite decide_False; [done|lia].
    + vm_compute. lia.
  - apply (store_error_leaves_store (failing_at 4 (DatabaseError 5)) fresh_db 4).
    + reflexivity.
    + intros m Hm. cbn. rewrite decide_False; [done|lia].
    + vm_compute. lia.
Defined.

(** X17: every tag that [_parse_tags] returns is a non-empty text without a
    comma that neither begins nor ends with whitespace, and it is a piece
    of the input: the stripped text between two commas (or an end) of the
    input.  This holds for every notion of whitespace. *)
Theorem parsed_tags_are_clean isspace tags result :
  _parse_tags isspace tags = Some result →
  ∀ t, t ∈ result →
    t ≠ [] ∧ (comma ∉ t) ∧ stripped isspace t ∧
    ∃ s piece, tags = Some s ∧ piece ∈ split comma s ∧
               t = strip isspace piece.
Proof.
  intros (s & -> & Hs & ->)%parse_tags_inv t.
  rewrite list_elem_of_filter, list_elem_of_fmap.
  intros (Ht & piece & -> & Hpiece). repeat split.
  - done.
  - intros Hc%strip_subseteq. by eapply split_no_sep.
  - by destruct (strip_decompose isspace piece) as (? & ? & _ & _ & _ & []).
  - by destruct (strip_decompose isspace piece) as (? & ? & _ & _ & _ & []).
  - by exists s, piece.
Qed.

Lemma parsed_tags_are_clean_witness :
  _parse_tags ascii_isspace (Some [32; 97; 98; 44; 32; 44; 99; 32; 100; 10]%N)
    = Some [[97; 98]; [99; 32; 100]]%N ∧
  ∀ t, t ∈ [[97; 98]; [99; 32; 100]]%N →
    t ≠ [] ∧ (comma ∉ t) ∧ stripped ascii_isspace t ∧
    ∃ s piece,
      Some [32; 97; 98; 44; 32; 44; 99; 32; 100; 10]%N = Some s ∧
      piece ∈ split comma s ∧ t = strip ascii_isspace piece.
Proof.
  split; [reflexivity|].
  apply (parsed_tags_are_clean ascii_isspace
           (Some [32; 97; 98; 44; 32; 44; 99; 32; 100; 10]%N)).
  reflexivity.
Defined.

(** X18: where a space is whitespace, [_parse_tags] reads back the tags
    that the listing joins with a comma and a space: for a non-empty list
    of tags, each non-empty, without a comma and without whitespace at its
    ends, parsing [", ".join(tags)] gives the list again. *)
Theorem joined_tags_parse_back isspace tags :
  isspace space = true →
  tags ≠ [] →
  Forall (λ t, t ≠ [] ∧ (comma ∉ t) ∧ stripped isspace t) tags →
  _parse_tags isspace (Some (join [comma; space] tags)) = Some tags.
Proof.
  intros Hspace Hne Htags. destruct tags as [|t ts]; [done|].
  rewrite parse_tags_nonempty.
  2: { inversion Htags as [|?? (Ht & _) _]; subst.
       destruct t; [done|]. by destruct ts. }
  rewrite split_join
    by (eapply Forall_impl; [exact Htags|]; by intros ? (_ & ? & _)).
  f_equal. rewrite fmap_cons, <- list_fmap_compose.
  assert (∀ l, Forall (λ t, t ≠ [] ∧ (comma ∉ t) ∧ stripped isspace t) l →
               filter (λ t, t ≠ []) l = l) as Hfilter.
  { induction 1 as [|x l (Hx & _) _ IH]; [done|].
    by rewrite filter_cons, decide_True, IH. }
  transitivity (filter (λ t, t ≠ []) (t :: ts)); [|by apply Hfilter].
  f_equal.
  inversion Htags as [|?? (_ & _ & Ht) Hts]; subst.
  rewrite strip_stripped by done. f_equal.
  rewrite <- (list_fmap_id ts) at 2. apply Forall_fmap_ext.
  eapply Forall_impl; [exact Hts|]. intros x (_ & _ & Hx). unfold compose.
  change (space :: x) with ([space] ++ x).
  rewrite (strip_spaces_l isspace [space]), strip_stripped; [done..|].
  by constructor.
Qed.

Lemma joined_tags_parse_back_witness :
  _parse_tags ascii_isspace
    (Some (join [comma; space] [[97; 98]; [99; 32; 100]; [101]]%N)) =
    Some [[97; 98]; [99; 32; 100]; [101]]%N.
Proof.
  apply (joined_tags_parse_back ascii_isspace
           [[97; 98]; [99; 32; 100]; [101]]%N).
  - reflexivity.
  - done.
  - repeat (apply Forall_cons_2;
              [split; [done|split; [by_decide|]];
               split; cbn; intros c [= <-]; reflexivity|]).
    apply Forall_nil_2.
Defined.

(** X19: where a newline is whitespace and a backtick is not,
    [_strip_markdown_fences] unwraps a fenced answer: for a text made of
    an opening fence, a language tag without a newline, a newline, a body,
    a newline and the closing fence, with any whitespace around it, the
    result is the body without the whitespace at its ends. *)
Theorem fenced_text_is_unwrapped isspace pre lang body post :
  isspace backtick = false →
  isspace newline = true →
  Forall (λ c, isspace c = true) pre →
  Forall (λ c, isspace c = true) post →
  newline ∉ lang →
  _strip_markdown_fences isspace
    (pre ++ (fence ++ lang ++ [newline] ++ body ++ [newline] ++ fence)
         ++ post) =
    strip isspace body.
Proof.
  intros Htick Hnl Hpre Hpost Hlang. unfold _strip_markdown_fences.
  rewrite strip_unique; [|done|done|].
  2: { split; intros c.
       - by intros [= <-].
       - rewrite !(assoc_L (++)). unfold fence.
         rewrite (assoc_L (++) _ [backtick; backtick] [backtick]).
         rewrite last_snoc. by intros [= <-]. }
  cbn zeta.
  assert (startswith fence
            (fence ++ lang ++ [newline] ++ body ++ [newline] ++ fence) = true)
    as -> by (by apply bool_decide_eq_true).
  rewrite (assoc_L (++) fence lang).
  change ([newline] ++ body ++ [newline] ++ fence)
    with (newline :: (body ++ [newline] ++ fence)).
  rewrite after_first_app.
  2: { rewrite elem_of_app. intros [Hf|Hl]; [|done].
       unfold fence in Hf. rewrite !elem_of_cons in Hf.
       destruct Hf as [Hf|[Hf|[Hf|Hf]]]; try done.
       by apply elem_of_nil in Hf. }
  rewrite (assoc_L (++) body [newline] fence), endswith_app.
  rewrite length_app.
  replace (length (body ++ [newline]) + length fence - 3)%nat
    with (length (body ++ [newline])) by (cbn; lia).
  rewrite take_app_length. apply strip_spaces_r. by constructor.
Qed.

Lemma fenced_text_is_unwrapped_witness :
  _strip_markdown_fences ascii_isspace
    ([32] ++ (fence ++ [106; 115; 111; 110] ++ [newline] ++ [123; 125; 32]
                    ++ [newline] ++ fence) ++ [10; 10])%N =
    strip ascii_isspace [123; 125; 32]%N.
Proof.
  apply (fenced_text_is_unwrapped ascii_isspace [32]%N [106; 115; 111; 110]%N
           [123; 125; 32]%N [10; 10]%N).
  - reflexivity.
  - reflexivity.
  - by repeat constructor.
  - by repeat constructor.
  - by_decide.
Defined.

(** X20: the result of [_strip_markdown_fences] never begins or ends with
    whitespace; and a text that, without the whitespace at its ends,
    neither begins nor ends with a fence is returned without that
    whitespace and otherwise as it is. *)
Theorem unfenced_text_is_stripped isspace text :
  stripped isspace (_strip_markdown_fences isspace text) ∧
  (startswith fence (strip isspace text) = false →
   endswith fence (strip isspace text) = false →
   _strip_markdown_fences isspace text = strip isspace text).
Proof.
  split.
  - unfold _strip_markdown_fences. cbn zeta.
    match goal with
    | |- stripped _ (strip _ ?s) =>
        by destruct (strip_decompose isspace s) as (? & ? & _ & _ & _ & ?)
    end.
  - intros Hstart Hend. unfold _strip_markdown_fences. cbn zeta.
    rewrite Hstart, Hend. apply strip_stripped.
    by destruct (strip_decompose isspace text) as (? & ? & _ & _ & _ & ?).
Qed.

Lemma unfenced_text_is_stripped_witness :
  _strip_markdown_fences ascii_isspace [32; 123; 96; 125; 10]%N =
    strip ascii_isspace [32; 123; 96; 125; 10]%N.
Proof.
  apply (unfenced_text_is_stripped ascii_isspace [32; 123; 96; 125; 10]%N);
    reflexivity.
Defined.
